(** * Clean-Video: silence trimming and subtitle refinement

    A shallow embedding of the algorithmic core of the repository:

    - [core/cleaner.py], [remove_video_silence]: silence gaps, keep
      intervals and the ffmpeg filter graph;
    - [core/editor.py], [ai_refine_subtitles]: the function as it runs,
      and its reassemble-and-merge loop over a given result mapping;
    - [core/editor.py], [ai_review_chunks]: the windowed correction pass;
    - [main.py], [process_single_video]: the renaming of the files at the
      end.

    Modelling conventions.

    - Times in [cleaner.py] are Python floats.  Module [cleaner] has them
      as exact rationals ([Q]) and carries the general statements, each of
      which is meant for the arithmetic without rounding; module
      [cleaner64] has the same lines on binary64 floats and is evaluated
      where rounding decides the outcome.
    - A Python [str] is a sequence of code points and [len] counts code
      points, so subtitle text is a [list N] of code points.  The ffmpeg
      filter text is pure ASCII and is a [string].
    - [srt.Subtitle] objects are mutated in place by both passes.  The list
      of subtitles is the store; a mutation of the object at position [i]
      is an update of the list at index [i].  The lists come from
      [srt.parse], so no object occurs at two positions.
    - External services (Whisper, Gemini) are parameters of the functions
      that consult them.
    - The files of [main.py] are a map from path strings to contents, with
      [os.rename], [os.remove] and [os.path.exists] as on POSIX;
      [os.path.splitext] is a parameter. *)

From Stdlib Require Import Floats.PrimFloat.
From Stdlib Require Import QArith Lqa String Ascii.
From stdpp Require Import gmap list sorting pretty.

#[local] Set Warnings "-clear-no-such-hyp".

Local Open Scope Q_scope.

(** ** Part 1: [core/cleaner.py] *)

Module cleaner.

(** A Whisper segment; only [start] and [end] are read. *)
Record Segment := mkSegment { seg_start : Q; seg_end : Q }.

(** Python's [a > b] on times. *)
Definition gt (a b : Q) : bool := negb (Qle_bool a b).

(** The body of [for segment in segments:] (lines 51-54); the state is
    [(segments_to_delete, previous_end)]. *)
Definition between_step (gap_threshold : Q)
    (st : list (Q * Q) * Q) (segment : Segment) : list (Q * Q) * Q :=
  let '(to_delete, previous_end) := st in
  (if gt (seg_start segment - previous_end) gap_threshold
   then to_delete ++ [(previous_end, seg_start segment)]
   else to_delete,
   seg_end segment).

(** Lines 36-58: the silence gaps, or [None] when the generator of
    segments is empty ("No speech detected."). *)
Definition segments_to_delete (segments : list Segment)
    (video_duration gap_threshold : Q) : option (list (Q * Q)) :=
  match segments with
  | [] => None
  | first_segment :: rest =>
      let to_delete0 :=
        if gt (seg_start first_segment) gap_threshold
        then [(0, seg_start first_segment)] else [] in
      let '(to_delete, previous_end) :=
        fold_left (between_step gap_threshold) rest
                  (to_delete0, seg_end first_segment) in
      Some (if gt (video_duration - previous_end) gap_threshold
            then to_delete ++ [(previous_end, video_duration)]
            else to_delete)
  end.

(** The body of [for silence_start, silence_end in segments_to_delete:]
    (lines 79-90); the state is
    [(segments_to_keep, previous_keep_end_inc_buffer)]. *)
Definition keep_step (half_gap : Q)
    (st : list (Q * Q) * Q) (silence : Q * Q) : list (Q * Q) * Q :=
  let '(to_keep, previous_keep_end_inc_buffer) := st in
  let '(silence_start, silence_end) := silence in
  let keep_end := silence_start + half_gap in
  let keep_start := previous_keep_end_inc_buffer in
  (if gt keep_end keep_start
   then to_keep ++ [(keep_start, keep_end)] else to_keep,
   silence_end - half_gap).

(** Lines 65-94. *)
Definition segments_to_keep (to_delete : list (Q * Q))
    (video_duration gap_threshold : Q) : list (Q * Q) :=
  let half_gap := gap_threshold / 2 in
  let '(to_keep, previous_keep_end_inc_buffer) :=
    fold_left (keep_step half_gap) to_delete ([], 0) in
  if gt video_duration previous_keep_end_inc_buffer
  then to_keep ++ [(previous_keep_end_inc_buffer, video_duration)]
  else to_keep.

(** What the interval computation of [remove_video_silence] ends in:
    one of the three early [return input_file], or the keep list handed
    to the ffmpeg command. *)
Inductive Trim :=
| NoSpeech
| NoSilence
| NothingRemains
| Keep (to_delete to_keep : list (Q * Q)).

Definition keep_intervals (segments : list Segment)
    (video_duration gap_threshold : Q) : Trim :=
  match segments_to_delete segments video_duration gap_threshold with
  | None => NoSpeech
  | Some [] => NoSilence
  | Some to_delete =>
      match segments_to_keep to_delete video_duration gap_threshold with
      | [] => NothingRemains
      | to_keep => Keep to_delete to_keep
      end
  end.

(** *** The ffmpeg filter graph (lines 100-112) *)

Section filter_graph.

(** [f"{start}"] on a float is Python's [str(float)]; the decimal
    rendering of a time is a parameter of the model. *)
Variable fmt : Q -> string.

Definition video_trim (i : nat) (start end_ : Q) : string :=
  ("[0:v]trim=start=" +:+ fmt start +:+ ":end=" +:+ fmt end_
    +:+ ",setpts=PTS-STARTPTS[v" +:+ pretty i +:+ "]")%string.

Definition audio_trim (i : nat) (start end_ : Q) : string :=
  ("[0:a]atrim=start=" +:+ fmt start +:+ ":end=" +:+ fmt end_
    +:+ ",asetpts=PTS-STARTPTS[a" +:+ pretty i +:+ "]")%string.

Definition concat_input (i : nat) : string :=
  ("[v" +:+ pretty i +:+ "][a" +:+ pretty i +:+ "]")%string.

(** Python's [enumerate]. *)
Definition enumerate {A} (l : list A) : list (nat * A) :=
  zip (seq 0 (length l)) l.

(** The body of [for i, (start, end) in enumerate(segments_to_keep):];
    the state is [(filter_parts, concat_inputs)]. *)
Definition filter_step (st : list string * list string)
    (entry : nat * (Q * Q)) : list string * list string :=
  let '(filter_parts, concat_inputs) := st in
  let '(i, (start, end_)) := entry in
  ((filter_parts ++ [video_trim i start end_]) ++ [audio_trim i start end_],
   concat_inputs ++ [concat_input i]).

Definition filter_lists (to_keep : list (Q * Q))
    : list string * list string :=
  fold_left filter_step (enumerate to_keep) ([], []).

Definition filter_parts (to_keep : list (Q * Q)) : list string :=
  fst (filter_lists to_keep).

Definition concat_inputs (to_keep : list (Q * Q)) : list string :=
  snd (filter_lists to_keep).

Definition filter_complex (to_keep : list (Q * Q)) : string :=
  (String.concat ";" (filter_parts to_keep) +:+ ";"
    +:+ String.concat "" (concat_inputs to_keep)
    +:+ "concat=n=" +:+ pretty (length to_keep)
    +:+ ":v=1:a=1[outv][outa]")%string.

(** What [remove_video_silence] does once Whisper has answered: it
    returns [input_file] as it is, or runs ffmpeg with the filter graph of
    the keep list. *)
Inductive Action :=
| ReturnInput
| RunFfmpeg (graph : string).

Definition remove_video_silence (segments : list Segment)
    (video_duration gap_threshold : Q) : Action :=
  match keep_intervals segments video_duration gap_threshold with
  | Keep _ to_keep => RunFfmpeg (filter_complex to_keep)
  | _ => ReturnInput
  end.

End filter_graph.

End cleaner.

(** ** Part 1, continued: the interval computation on binary64 floats

    The same lines of [remove_video_silence] with the arithmetic Python
    performs: [float] is IEEE 754 binary64, [-], [+] and [/] round to
    nearest, and [>] and [<] are the IEEE comparisons.  This version is
    run on concrete inputs; the universally quantified statements are
    proved over [cleaner], where the arithmetic is exact. *)

Module cleaner64.

Record Segment := mkSegment { seg_start : float; seg_end : float }.

(** Python's [a > b] on floats. *)
Definition gt (a b : float) : bool := PrimFloat.ltb b a.

(** Lines 51-54. *)
Definition between_step (gap_threshold : float)
    (st : list (float * float) * float) (segment : Segment)
    : list (float * float) * float :=
  let '(to_delete, previous_end) := st in
  (if gt (seg_start segment - previous_end)%float gap_threshold
   then to_delete ++ [(previous_end, seg_start segment)]
   else to_delete,
   seg_end segment).

(** Lines 36-58. *)
Definition segments_to_delete (segments : list Segment)
    (video_duration gap_threshold : float) : option (list (float * float)) :=
  match segments with
  | [] => None
  | first_segment :: rest =>
      let to_delete0 :=
        if gt (seg_start first_segment) gap_threshold
        then [(0%float, seg_start first_segment)] else [] in
      let '(to_delete, previous_end) :=
        fold_left (between_step gap_threshold) rest
                  (to_delete0, seg_end first_segment) in
      Some (if gt (video_duration - previous_end)%float gap_threshold
            then to_delete ++ [(previous_end, video_duration)]
            else to_delete)
  end.

(** Lines 79-90. *)
Definition keep_step (half_gap : float)
    (st : list (float * float) * float) (silence : float * float)
    : list (float * float) * float :=
  let '(to_keep, previous_keep_end_inc_buffer) := st in
  let '(silence_start, silence_end) := silence in
  let keep_end := (silence_start + half_gap)%float in
  let keep_start := previous_keep_end_inc_buffer in
  (if gt keep_end keep_start
   then to_keep ++ [(keep_start, keep_end)] else to_keep,
   (silence_end - half_gap)%float).

(** Lines 65-94; [previous_keep_end_inc_buffer < video_duration] is
    [PrimFloat.ltb] as it stands. *)
Definition segments_to_keep (to_delete : list (float * float))
    (video_duration gap_threshold : float) : list (float * float) :=
  let half_gap := (gap_threshold / 2)%float in
  let '(to_keep, previous_keep_end_inc_buffer) :=
    fold_left (keep_step half_gap) to_delete ([], 0%float) in
  if PrimFloat.ltb previous_keep_end_inc_buffer video_duration
  then to_keep ++ [(previous_keep_end_inc_buffer, video_duration)]
  else to_keep.

Inductive Trim :=
| NoSpeech
| NoSilence
| NothingRemains
| Keep (to_delete to_keep : list (float * float)).

Definition keep_intervals (segments : list Segment)
    (video_duration gap_threshold : float) : Trim :=
  match segments_to_delete segments video_duration gap_threshold with
  | None => NoSpeech
  | Some [] => NoSilence
  | Some to_delete =>
      match segments_to_keep to_delete video_duration gap_threshold with
      | [] => NothingRemains
      | to_keep => Keep to_delete to_keep
      end
  end.

End cleaner64.

(** ** Part 2: [core/editor.py] *)

Module editor.

(** A Python [str]: a sequence of code points; [len] is [length] and [+]
    is [++]. *)
Definition str : Type := list N.

(** An ASCII literal as a [str]. *)
Definition lit (s : string) : str :=
  (fun a => N_of_ascii a) <$> list_ascii_of_string s.

(** [srt.Subtitle].  [start] and [end] are [datetime.timedelta]s, held
    as a count of microseconds. *)
Record Subtitle := mkSubtitle {
  index : Z;
  start : Z;
  end_ : Z;
  content : str;
  proprietary : str
}.

(** [sub.content = c] and [sub.end = e] on the object [sub]. *)
Definition set_content (c : str) (sub : Subtitle) : Subtitle :=
  {| index := index sub; start := start sub; end_ := end_ sub;
     content := c; proprietary := proprietary sub |}.

Definition set_end (e : Z) (sub : Subtitle) : Subtitle :=
  {| index := index sub; start := start sub; end_ := e;
     content := content sub; proprietary := proprietary sub |}.

(** [class ModifiedSentence(BaseModel)]: [should_merge_next] defaults to
    [False]. *)
Record ModifiedSentence := mkModifiedSentence {
  output : str;
  should_merge_next : bool
}.

(** *** Pass 1, reassemble and merge (lines 244-262)

    The loop is given over an arbitrary result mapping [results], from
    positions to [ModifiedSentence]s. *)

(** The three objects the loop works on.  [subtitles] is the parsed list,
    mutated in place through [current_sub]. *)
Record Reassembly := mkReassembly {
  subtitles : list Subtitle;
  final_subtitles : list Subtitle;
  skip_indices : gset nat
}.

(** [sorted(results.keys())]. *)
Definition sorted_indices (results : gmap nat ModifiedSentence) : list nat :=
  merge_sort Nat.le (elements (dom results)).

(** The body of [for i in sorted_indices:]; [None] is a [KeyError] or an
    [IndexError]. *)
Definition merge_step (results : gmap nat ModifiedSentence)
    (st : Reassembly) (i : nat) : option Reassembly :=
  if decide (i ∈ skip_indices st) then Some st
  else
    current_data ← results !! i;
    current_sub ← subtitles st !! i;
    let current_sub := set_content (output current_data) current_sub in
    match (if should_merge_next current_data
           then results !! (i + 1)%nat else None) with
    | Some next_data =>
        let combined := output current_data ++ output next_data in
        if decide (length combined <= 30)%nat then
          next_sub ← subtitles st !! (i + 1)%nat;
          Some {| subtitles :=
                    <[i := set_end (end_ next_sub)
                             (set_content combined current_sub)]>
                      (subtitles st);
                  final_subtitles := final_subtitles st;
                  skip_indices := {[ (i + 1)%nat ]} ∪ skip_indices st |}
        else
          Some {| subtitles := <[i := current_sub]> (subtitles st);
                  final_subtitles := final_subtitles st;
                  skip_indices := skip_indices st |}
    | None =>
        Some {| subtitles := <[i := current_sub]> (subtitles st);
                final_subtitles := final_subtitles st;
                skip_indices := skip_indices st |}
    end.

Fixpoint merge_loop (results : gmap nat ModifiedSentence)
    (indices : list nat) (st : Reassembly) : option Reassembly :=
  match indices with
  | [] => Some st
  | i :: indices => st' ← merge_step results st i; merge_loop results indices st'
  end.

Definition reassemble (results : gmap nat ModifiedSentence)
    (subs : list Subtitle) : option Reassembly :=
  merge_loop results (sorted_indices results)
    {| subtitles := subs; final_subtitles := []; skip_indices := ∅ |}.

(** *** Pass 1 as a whole, [ai_refine_subtitles] (lines 211-270)

    Line 229 hands [process_single_subtitle] to [executor.submit].  No
    module of the program defines or imports that name, so the first turn
    of the dict comprehension raises [NameError], inside the [with] block
    and outside any [try].  For a file with one subtitle or more the
    function ends there: no task is submitted, [results] gets no entry,
    the loop above is not reached and no [_flash.srt] is written.  For a
    file without subtitles it returns [srt_path] at line 222. *)
Inductive Outcome :=
| ReturnsPath
| RaisesNameError.

Definition ai_refine_subtitles (subs : list Subtitle) : Outcome :=
  match subs with
  | [] => ReturnsPath
  | _ :: _ => RaisesNameError
  end.

(** *** Pass 2, [ai_review_chunks] (lines 143-209) *)

Definition CHUNK_SIZE : nat := 100.

Record ChunkCorrection := mkChunkCorrection {
  c_index : Z;
  c_content : str
}.

(** The body of [for correction in data.corrections:]; the state is the
    chunk and [updates_count].  [target] is the first subtitle of the
    chunk with the correction's index, [None] when there is none; a
    [srt.Subtitle] defines neither [__bool__] nor [__len__], so
    [if target:] only tests that one was found. *)
Definition apply_correction (st : list Subtitle * nat)
    (correction : ChunkCorrection) : list Subtitle * nat :=
  let '(chunk, updates_count) := st in
  match list_find (fun s => index s = c_index correction) chunk with
  | Some (k, target) =>
      if decide (content target ≠ c_content correction)
      then (<[k := set_content (c_content correction) target]> chunk,
            S updates_count)
      else st
  | None => st
  end.

Definition apply_corrections (chunk : list Subtitle)
    (corrections : list ChunkCorrection) : list Subtitle * nat :=
  fold_left apply_correction corrections (chunk, 0%nat).

(** [range(0, stop, step)]. *)
Definition range_step (stop step : nat) : list nat :=
  (fun k => k * step)%nat <$> seq 0 ((stop + step - 1) / step)%nat.

Section review.

(** The request to the model together with the validation of its
    answer, for the chunk starting at [i]: the corrections, or [None]
    when anything inside the [try] raises before the loop over the
    corrections. *)
Variable review : nat -> list Subtitle -> option (list ChunkCorrection).

(** [subtitles[i : i + CHUNK_SIZE]]. *)
Definition chunk_at (i : nat) (subs : list Subtitle) : list Subtitle :=
  take CHUNK_SIZE (drop i subs).

(** The answer applied to one chunk. *)
Definition reviewed (i : nat) (chunk : list Subtitle) : list Subtitle :=
  match review i chunk with
  | Some corrections => fst (apply_corrections chunk corrections)
  | None => chunk
  end.

(** One turn of [for i in range(0, len(subtitles), CHUNK_SIZE):].  The
    chunk shares its objects with [subtitles], so the chunk after the
    corrections is written back in place. *)
Definition review_chunk (subs : list Subtitle) (i : nat) : list Subtitle :=
  take i subs ++ reviewed i (chunk_at i subs)
    ++ drop (i + CHUNK_SIZE) subs.

Definition ai_review_chunks (subs : list Subtitle) : list Subtitle :=
  fold_left review_chunk (range_step (length subs) CHUNK_SIZE) subs.

End review.

End editor.

(** ** Part 2, continued: [main.py], the renaming at the end of
    [process_single_video] *)

Module main.

Section files.

(** The content of a file; nothing looks inside. *)
Variable File : Type.

(** [os.path.splitext(path)[0]], from the Python library. *)
Variable splitext_root : string -> string.

(** The files of the directory are a map from paths to contents: two
    paths are the same file exactly when they are the same string.
    A step leaves the files done, or stopped by an [OSError], which the
    [except Exception] of [process_single_video] catches. *)
Inductive Step :=
| Done (files : gmap string File)
| Stopped (files : gmap string File).

Definition and_then (step : Step) (next : gmap string File -> Step) : Step :=
  match step with
  | Done files => next files
  | Stopped files => Stopped files
  end.

(** [os.path.exists]. *)
Definition exists_ (path : string) (files : gmap string File) : bool :=
  bool_decide (is_Some (files !! path)).

(** [os.rename] as on POSIX: a missing source is a [FileNotFoundError],
    an existing destination file is replaced, and a rename onto itself
    does nothing. *)
Definition rename (src dst : string) (files : gmap string File) : Step :=
  match files !! src with
  | None => Stopped files
  | Some file =>
      if decide (src = dst) then Done files
      else Done (<[dst := file]> (delete src files))
  end.

(** [os.remove]. *)
Definition remove (path : string) (files : gmap string File) : Step :=
  match files !! path with
  | None => Stopped files
  | Some _ => Done (delete path files)
  end.

(** Step 4 of [process_single_video] (lines 33-56), from the three paths
    the earlier steps leave it with. *)
Definition finalize (video_path trimmed_video final_srt : string)
    (files : gmap string File) : Step :=
  let orig_backup := (splitext_root video_path +:+ "_orig.mp4")%string in
  and_then (if exists_ orig_backup files then Done files
            else rename video_path orig_backup files) (fun files =>
  and_then (rename trimmed_video video_path files) (fun files =>
  let target_srt_name := (splitext_root video_path +:+ ".srt")%string in
  and_then (if exists_ target_srt_name files
            then remove target_srt_name files else Done files) (fun files =>
  and_then (rename final_srt target_srt_name files) (fun files =>
  let unrefined_srt := (splitext_root trimmed_video +:+ ".srt")%string in
  if exists_ unrefined_srt files
     && bool_decide (unrefined_srt <> final_srt)
  then remove unrefined_srt files else Done files)))).

End files.

End main.

(** ** Part 3: predicates and sample data used in the statements *)

(** Speech segments as the speech engine delivers them: ordered, each of
    positive length, non-overlapping, from [lo] on. *)
Fixpoint ordered_from (lo : Q) (segments : list cleaner.Segment) : Prop :=
  match segments with
  | [] => True
  | seg :: rest =>
      lo <= cleaner.seg_start seg
      /\ cleaner.seg_start seg < cleaner.seg_end seg
      /\ ordered_from (cleaner.seg_end seg) rest
  end.

(** Ordered, non-overlapping speech within [[0, video_duration)]. *)
Definition speech_ok (video_duration : Q)
    (segments : list cleaner.Segment) : Prop :=
  ordered_from 0 segments
  /\ Forall (fun seg => cleaner.seg_end seg <= video_duration) segments.

(** The same as a test, for the examples. *)
Definition speech_okb (video_duration : Q)
    (segments : list cleaner.Segment) : bool :=
  (fix go lo l :=
     match l with
     | [] => true
     | seg :: rest =>
         Qle_bool lo (cleaner.seg_start seg)
         && cleaner.gt (cleaner.seg_end seg) (cleaner.seg_start seg)
         && Qle_bool (cleaner.seg_end seg) video_duration
         && go (cleaner.seg_end seg) rest
     end) 0 segments.

(** Silence gaps whose starts do not decrease from [lo] on, each at least
    two buffers wide. *)
Fixpoint gaps_from (half_gap lo : Q) (gaps : list (Q * Q)) : Prop :=
  match gaps with
  | [] => True
  | (s, e) :: rest =>
      lo <= s /\ s + half_gap <= e - half_gap /\ gaps_from half_gap s rest
  end.

(** The start of the last gap, [lo] when there is none. *)
Fixpoint last_start (lo : Q) (gaps : list (Q * Q)) : Q :=
  match gaps with
  | [] => lo
  | (s, _) :: rest => last_start s rest
  end.

(** Intervals of positive width, each starting no earlier than the end
    of the one before, the first no earlier than [lo]. *)
Fixpoint chain (lo : Q) (l : list (Q * Q)) : Prop :=
  match l with
  | [] => True
  | (a, b) :: rest => lo <= a /\ a < b /\ chain b rest
  end.

(** The end of the last interval, [lo] when there is none. *)
Fixpoint tail_end (lo : Q) (l : list (Q * Q)) : Q :=
  match l with
  | [] => lo
  | (_, b) :: rest => tail_end b rest
  end.

(** The result the line at position [i] is merged with, if the loop
    merges it: the flag is set, the next position has a result, and the
    two texts together have at most 30 code points. *)
Definition merges_with (results : gmap nat editor.ModifiedSentence)
    (data : editor.ModifiedSentence) (i : nat)
    : option editor.ModifiedSentence :=
  next_data ← (if editor.should_merge_next data
               then results !! (i + 1)%nat else None);
  if decide (length (editor.output data ++ editor.output next_data) <= 30)%nat
  then Some next_data else None.

(** [line'] is [line] with, at most, another text ([only_text_differs]);
    and another text is the text of one of the corrections, one that
    names the line's index ([retexted]). *)
Definition only_text_differs (line line' : editor.Subtitle) : Prop :=
  line' = editor.set_content (editor.content line') line.

Definition retexted (corrections : list editor.ChunkCorrection)
    (line line' : editor.Subtitle) : Prop :=
  only_text_differs line line'
  /\ (editor.content line' = editor.content line
      \/ exists c, c ∈ corrections
                   /\ editor.c_index c = editor.index line
                   /\ editor.c_content c = editor.content line').

(** Times that are non-negative multiples of one tenth, printed as
    [str(float)] prints them ("1.5", "10.0"); the examples use it for
    the rendering the filter graph takes as a parameter. *)
Definition fmt_tenths (q : Q) : string :=
  let tenths := (Qnum q * 10 / Zpos (Qden q))%Z in
  (pretty (tenths / 10)%Z +:+ "." +:+ pretty (tenths mod 10)%Z)%string.

(** The filter graph in the words of the spec: for each keep interval
    in order, from position [i] on, the video trim and the audio trim of
    that interval, labelled with its position and each closed by a
    semicolon ([trims_from]); the labels of the pairs in the same order
    ([pairs_from]); and the concat operation over as many segments as
    there are keep intervals ([graph_text]). *)
Fixpoint trims_from (fmt : Q -> string) (i : nat) (to_keep : list (Q * Q))
    : string :=
  match to_keep with
  | [] => ""
  | (start, end_) :: rest =>
      "[0:v]trim=start=" +:+ fmt start +:+ ":end=" +:+ fmt end_
        +:+ ",setpts=PTS-STARTPTS[v" +:+ pretty i +:+ "];"
        +:+ "[0:a]atrim=start=" +:+ fmt start +:+ ":end=" +:+ fmt end_
        +:+ ",asetpts=PTS-STARTPTS[a" +:+ pretty i +:+ "];"
        +:+ trims_from fmt (S i) rest
  end%string.

Fixpoint pairs_from (i n : nat) : string :=
  match n with
  | O => ""
  | S n => "[v" +:+ pretty i +:+ "][a" +:+ pretty i +:+ "]"
             +:+ pairs_from (S i) n
  end%string.

Definition graph_text (fmt : Q -> string) (to_keep : list (Q * Q)) : string :=
  (trims_from fmt 0 to_keep +:+ pairs_from 0 (length to_keep)
    +:+ "concat=n=" +:+ pretty (length to_keep)
    +:+ ":v=1:a=1[outv][outa]")%string.


(** Three short lines, one per second, numbered from 1. *)
Definition three_lines : list editor.Subtitle :=
  [ editor.mkSubtitle 1 0 1000000 (editor.lit "so um") [];
    editor.mkSubtitle 2 1000000 2000000 (editor.lit "we add") [];
    editor.mkSubtitle 3 2000000 3000000 (editor.lit "two") [] ].

(** The result mapping in which every line keeps its own text and asks
    for a merge with the next line. *)
Definition asking_merge (subs : list editor.Subtitle)
    : gmap nat editor.ModifiedSentence :=
  map_seq 0 ((fun sub => editor.mkModifiedSentence (editor.content sub) true)
               <$> subs).

(** Two lines with the texts [a] and [b]. *)
Definition two_lines (a b : string) : list editor.Subtitle :=
  [ editor.mkSubtitle 1 0 1000000 (editor.lit a) [];
    editor.mkSubtitle 2 1000000 2000000 (editor.lit b) [] ].

(** The reassembly loop run to its end: the lines as the loop leaves
    them in place, the list it hands on and the consumed positions in
    increasing order. *)
Definition after_loop (results : gmap nat editor.ModifiedSentence)
    (subs : list editor.Subtitle)
    : option (list editor.Subtitle * list editor.Subtitle * list nat) :=
  st ← editor.reassemble results subs;
  Some (editor.subtitles st, editor.final_subtitles st,
        merge_sort Nat.le (elements (editor.skip_indices st))).

(** A review service that fails on every window but the first, where it
    repeats the text of line 1, rewrites line 2 and names a line 9 that
    does not exist. *)
Definition review_first_window (i : nat) (chunk : list editor.Subtitle)
    : option (list editor.ChunkCorrection) :=
  match i with
  | 0%nat =>
      Some [ editor.mkChunkCorrection 1 (editor.lit "so um");
             editor.mkChunkCorrection 2 (editor.lit "we add 1");
             editor.mkChunkCorrection 9 (editor.lit "lost") ]
  | _ => None
  end.

(** 150 one-second lines numbered from 1, all with the text "la": two
    windows, of 100 and of 50 lines. *)
Definition long_talk : list editor.Subtitle :=
  (fun k =>
     editor.mkSubtitle (Z.of_nat k + 1) (Z.of_nat k * 1000000)
       (Z.of_nat k * 1000000 + 1000000) (editor.lit "la") [])
    <$> seq 0 150.

(** A review service whose request for the first window fails, and which for
    the second window rewrites line 120 and names line 7, a line of the
    first window. *)
Definition review_second_window (i : nat) (chunk : list editor.Subtitle)
    : option (list editor.ChunkCorrection) :=
  match i with
  | 100%nat =>
      Some [ editor.mkChunkCorrection 120 (editor.lit "la la");
             editor.mkChunkCorrection 7 (editor.lit "stale") ]
  | _ => None
  end.


(** The gaps after a speech segment that ended at [previous_end], as a
    recursion on the segments still to come. *)
Fixpoint gaps_after (g T previous_end : Q) (segments : list cleaner.Segment)
    : list (Q * Q) :=
  match segments with
  | [] => if cleaner.gt (T - previous_end) g then [(previous_end, T)] else []
  | seg :: rest =>
      (if cleaner.gt (cleaner.seg_start seg - previous_end) g
       then [(previous_end, cleaner.seg_start seg)] else [])
        ++ gaps_after g T (cleaner.seg_end seg) rest
  end.

(** The keep intervals from the point [open] on, as a recursion on the
    gaps still to come. *)
Fixpoint keeps_after (h T open : Q) (gaps : list (Q * Q)) : list (Q * Q) :=
  match gaps with
  | [] => if cleaner.gt T open then [(open, T)] else []
  | (s, e) :: rest =>
      (if cleaner.gt (s + h) open then [(open, s + h)] else [])
        ++ keeps_after h T (e - h) rest
  end.

(** Gaps in order from [lo] on, each longer than [g] and none beyond
    [T]. *)
Fixpoint silences (g lo T : Q) (gaps : list (Q * Q)) : Prop :=
  match gaps with
  | [] => True
  | (s, e) :: rest => lo <= s /\ s + g < e /\ e <= T /\ silences g e T rest
  end.

(** The keep intervals when every gap cuts: one interval up to the
    buffer after each gap start, and one from the buffer before the last
    gap end up to [T]. *)
Fixpoint buffered (h T open : Q) (gaps : list (Q * Q)) : list (Q * Q) :=
  match gaps with
  | [] => [(open, T)]
  | (s, e) :: rest => (open, s + h) :: buffered h T (e - h) rest
  end.

(** Speech from 2 s to 5 s and from 6.5 s to 9 s. *)
Definition two_phrases : list cleaner.Segment :=
  [cleaner.mkSegment 2 5; cleaner.mkSegment (13 # 2) 9].

(** The root of a path of the examples: the path up to its last dot. *)
Definition root_of_sample (path : string) : string :=
  match path with
  | "talk.mp4" => "talk"
  | "talk_trimmed.mp4" => "talk_trimmed"
  | "talk.srt" => "talk"
  | "talk_refined.srt" => "talk_refined"
  | "talk_trimmed.srt" => "talk_trimmed"
  | "talk_trimmed_refined.srt" => "talk_trimmed_refined"
  | _ => path
  end%string.

(** The files after a first run on [talk.mp4] up to step 3, when ffmpeg
    has written a trimmed video; contents are numbers. *)
Definition after_trimming : gmap string nat :=
  list_to_map [ ("talk.mp4", 1%nat); ("talk_trimmed.mp4", 2%nat);
                ("talk_trimmed.srt", 3%nat);
                ("talk_trimmed_refined.srt", 4%nat) ]%string.

(** The same when nothing was trimmed, so that the subtitles were made
    from [talk.mp4] itself; and when a backup from an earlier run is
    there as well. *)
Definition nothing_trimmed : gmap string nat :=
  list_to_map [ ("talk.mp4", 1%nat); ("talk.srt", 3%nat);
                ("talk_refined.srt", 4%nat) ]%string.

Definition nothing_trimmed_again : gmap string nat :=
  <["talk_orig.mp4"%string := 0%nat]> nothing_trimmed.

(** ** Part 4: the silence trimmer *)

Section cleaner_facts.

Import cleaner.

Lemma gt_spec a b : gt a b = true <-> b < a.
Proof.
  unfold gt. rewrite negb_true_iff, <- not_true_iff_false, Qle_bool_iff.
  split; [apply Qnot_le_lt | apply Qlt_not_le].
Qed.

Lemma gt_cases a b : (gt a b = true /\ b < a) \/ (gt a b = false /\ a <= b).
Proof.
  destruct (gt a b) eqn:E.
  - left. split; [done | by apply gt_spec].
  - right. split; [done |].
    unfold gt in E. apply negb_false_iff in E. by apply Qle_bool_iff.
Qed.

Lemma chain_snoc l : forall lo a b,
  chain lo l -> tail_end lo l <= a -> a < b -> chain lo (l ++ [(a, b)]).
Proof.
  induction l as [| [c d] l IH]; simpl; intros lo a b Hl Ha Hab.
  - done.
  - destruct Hl as (Hc & Hcd & Hl). repeat split; auto.
Qed.

Lemma tail_end_snoc l : forall lo a b, tail_end lo (l ++ [(a, b)]) = b.
Proof.
  induction l as [| [c d] l IH]; simpl; intros; [done | apply IH].
Qed.

Lemma gaps_from_snoc h l : forall lo s e,
  gaps_from h lo l -> last_start lo l <= s -> s + h <= e - h ->
  gaps_from h lo (l ++ [(s, e)]).
Proof.
  induction l as [| [c d] l IH]; simpl; intros lo s e Hl Hs Hw.
  - done.
  - destruct Hl as (Hc & Hcd & Hl). repeat split; auto.
Qed.

Lemma last_start_snoc l : forall lo s e, last_start lo (l ++ [(s, e)]) = s.
Proof.
  induction l as [| [c d] l IH]; simpl; intros; [done | apply IH].
Qed.

Lemma half_gap_double g : g == 2 * (g / 2).
Proof. unfold Qdiv. change (/ 2) with (1 # 2). ring. Qed.

(** The loop over the later segments keeps the gap list well formed. *)
Lemma between_loop_gaps h g rest : forall acc previous_end,
  g == 2 * h ->
  gaps_from h 0 acc ->
  last_start 0 acc <= previous_end ->
  ordered_from previous_end rest ->
  let st := fold_left (between_step g) rest (acc, previous_end) in
  gaps_from h 0 (fst st) /\ last_start 0 (fst st) <= snd st.
Proof.
  induction rest as [| seg rest IH]; simpl; intros acc p Hg Hacc Hp Hord.
  - done.
  - destruct Hord as (Hs & Hse & Hrest).
    destruct (gt_cases (seg_start seg - p) g) as [[-> Hgt] | [-> Hle]].
    + apply IH; auto.
      * apply gaps_from_snoc; [done | done | lra].
      * rewrite last_start_snoc. lra.
    + apply IH; auto. lra.
Qed.

Lemma segments_to_delete_gaps h segments T g to_delete :
  g == 2 * h ->
  ordered_from 0 segments ->
  segments_to_delete segments T g = Some to_delete ->
  gaps_from h 0 to_delete.
Proof.
  intros Hg Hord. destruct segments as [| first rest]; simpl; [done |].
  destruct Hord as (H0 & Hfe & Hrest).
  set (acc0 := if gt (seg_start first) g then [(0, seg_start first)] else []).
  assert (gaps_from h 0 acc0 /\ last_start 0 acc0 <= seg_end first)
    as [Hacc0 Hls0].
  { unfold acc0.
    destruct (gt_cases (seg_start first) g) as [[-> Hgt] | [-> Hle]]; simpl.
    - repeat split; lra.
    - split; [done | lra]. }
  pose proof (between_loop_gaps h g rest acc0 (seg_end first)
                Hg Hacc0 Hls0 Hrest) as Hloop.
  destruct (fold_left (between_step g) rest (acc0, seg_end first))
    as [acc p]; simpl in Hloop.
  destruct Hloop as [Hacc Hp].
  intros [= <-].
  destruct (gt_cases (T - p) g) as [[-> Hgt] | [-> Hle]]; [| done].
  apply gaps_from_snoc; [done | done | lra].
Qed.

(** The loop over the gaps keeps the keep list a chain, closed before the
    point at which the next interval opens. *)
Lemma keep_loop_chain h to_delete : forall acc prev m,
  chain 0 acc ->
  tail_end 0 acc <= prev ->
  tail_end 0 acc <= m + h ->
  gaps_from h m to_delete ->
  let st := fold_left (keep_step h) to_delete (acc, prev) in
  chain 0 (fst st) /\ tail_end 0 (fst st) <= snd st.
Proof.
  induction to_delete as [| [s e] rest IH]; simpl;
    intros acc prev m Hacc Hprev Hm Hgaps.
  - done.
  - destruct Hgaps as (Hms & Hw & Hrest).
    destruct (gt_cases (s + h) prev) as [[-> Hgt] | [-> Hle]].
    + apply (IH _ _ s); [| | | done].
      * by apply chain_snoc.
      * rewrite tail_end_snoc. lra.
      * rewrite tail_end_snoc. lra.
    + apply (IH _ _ s); [done | lra | lra | done].
Qed.

Lemma segments_to_keep_chain to_delete T g :
  0 < g -> gaps_from (g / 2) 0 to_delete ->
  chain 0 (segments_to_keep to_delete T g).
Proof.
  intros Hg Hgaps. unfold segments_to_keep.
  pose proof (half_gap_double g) as Hh.
  pose proof (keep_loop_chain (g / 2) to_delete [] 0 0) as Hloop.
  simpl in Hloop.
  destruct (fold_left (keep_step (g / 2)) to_delete ([], 0)) as [acc prev].
  destruct Hloop as [Hacc Hprev]; [done | lra | lra | done |].
  simpl in Hacc, Hprev.
  destruct (gt_cases T prev) as [[-> Hgt] | [-> Hle]]; [| done].
  by apply chain_snoc.
Qed.

Lemma chain_lookup lo l : forall i a b,
  chain lo l -> l !! i = Some (a, b) -> lo <= a /\ a < b.
Proof.
  revert lo. induction l as [| [c d] l IH]; intros lo i a b Hl Hi.
  - done.
  - destruct Hl as (Hc & Hcd & Hl). destruct i as [| i]; simpl in Hi.
    + injection Hi as -> ->. done.
    + destruct (IH d i a b Hl Hi). split; [lra | done].
Qed.

Lemma chain_lookup_lt lo l : forall i j a b c d,
  chain lo l -> (i < j)%nat ->
  l !! i = Some (a, b) -> l !! j = Some (c, d) -> b <= c.
Proof.
  revert lo. induction l as [| [x y] l IH]; intros lo i j a b c d Hl Hij Hi Hj.
  - done.
  - destruct Hl as (Hx & Hxy & Hl).
    destruct j as [| j]; [lia |]. simpl in Hj.
    destruct i as [| i]; simpl in Hi.
    + injection Hi as -> ->. by destruct (chain_lookup _ _ _ _ _ Hl Hj).
    + apply (IH y i j a b c d); [done | lia | done | done].
Qed.

(** What [keep_intervals] hands on was computed by the two loops. *)
Lemma keep_intervals_Keep segments T g to_delete to_keep :
  keep_intervals segments T g = Keep to_delete to_keep ->
  segments_to_delete segments T g = Some to_delete
  /\ to_delete <> []
  /\ to_keep = segments_to_keep to_delete T g.
Proof.
  unfold keep_intervals.
  destruct (segments_to_delete segments T g) as [[| gap gaps] |]; try done.
  destruct (segments_to_keep (gap :: gaps) T g) eqn:E; [done |].
  intros [= <- <-]. done.
Qed.

Lemma keep_intervals_Keep_nonempty segments T g to_delete to_keep :
  keep_intervals segments T g = Keep to_delete to_keep -> to_keep <> [].
Proof.
  unfold keep_intervals.
  destruct (segments_to_delete segments T g) as [[| gap gaps] |]; try done.
  destruct (segments_to_keep (gap :: gaps) T g); [done |].
  by intros [= <- <-].
Qed.



(** C1 (as the code computes it).  For speech [(2,5)] in a video of 10
    seconds with threshold 1, the silence gaps are [(0,2)] and [(5,10)] and
    the keep intervals are the three intervals [(0, 0.5)], [(1.5, 5.5)] and
    [(9.5, 10)]: half a second of each silence is kept on both sides of the
    speech. *)
Theorem keep_intervals_example :
  keep_intervals [mkSegment 2 5] 10 1
  = Keep [(0, 2); (5, 10)] [(0, 1 # 2); (3 # 2, 11 # 2); (19 # 2, 10)].
Proof. reflexivity. Qed.

(** C1 (as the spec states it) fails: the code does not return two keep
    intervals equal to [(0, 2.5)] and [(4.5, 10)]. *)
Lemma keep_intervals_example_not_two :
  ~ exists to_delete to_keep,
      keep_intervals [mkSegment 2 5] 10 1 = Keep to_delete to_keep
      /\ Forall2 (fun x y => fst x == fst y /\ snd x == snd y)
           to_keep [(0, 5 # 2); (9 # 2, 10)].
Proof.
  intros (to_delete & to_keep & Hrun & Hsame).
  vm_compute in Hrun. injection Hrun as <- <-.
  apply Forall2_length in Hsame. discriminate Hsame.
Qed.

(** C4.  For ordered, non-overlapping speech within the video and a
    positive threshold, every keep interval handed to ffmpeg ends after it
    starts, and of any two keep intervals the later one starts no earlier
    than the earlier one ends (so starts and ends increase strictly). *)
Theorem keep_intervals_increasing segments T g to_delete to_keep :
  segments <> [] ->
  speech_ok T segments ->
  0 < g ->
  keep_intervals segments T g = Keep to_delete to_keep ->
  (forall i a b, to_keep !! i = Some (a, b) -> a < b)
  /\ (forall i j a b c d, (i < j)%nat ->
        to_keep !! i = Some (a, b) -> to_keep !! j = Some (c, d) ->
        b <= c /\ a < c /\ b < d).
Proof.
  intros _ [Hord _] Hg Hrun.
  apply keep_intervals_Keep in Hrun as (Hdel & _ & ->).
  assert (chain 0 (segments_to_keep to_delete T g)) as Hchain.
  { apply segments_to_keep_chain; [done |].
    eapply segments_to_delete_gaps; [apply half_gap_double | done | done]. }
  split.
  - intros i a b Hi. by destruct (chain_lookup _ _ _ _ _ Hchain Hi).
  - intros i j a b c d Hij Hi Hj.
    pose proof (chain_lookup_lt _ _ _ _ _ _ _ _ Hchain Hij Hi Hj).
    destruct (chain_lookup _ _ _ _ _ Hchain Hi).
    destruct (chain_lookup _ _ _ _ _ Hchain Hj).
    repeat split; lra.
Qed.

Lemma speech_okb_true T segments :
  speech_okb T segments = true -> speech_ok T segments.
Proof.
  unfold speech_okb, speech_ok. generalize 0.
  induction segments as [| seg rest IH]; intros lo H; simpl.
  - split; [done | constructor].
  - apply andb_prop in H as [H Hrest]. apply andb_prop in H as [H HT].
    apply andb_prop in H as [Hlo Hse].
    apply Qle_bool_iff in Hlo, HT. apply gt_spec in Hse.
    destruct (IH _ Hrest) as [Hord Hall].
    split; [done | by constructor].
Qed.

Lemma keep_intervals_increasing_witness :
  let to_keep := [(0, 1 # 2); (3 # 2, 11 # 2); (19 # 2, 10)] in
  (forall i a b, to_keep !! i = Some (a, b) -> a < b)
  /\ (forall i j a b c d, (i < j)%nat ->
        to_keep !! i = Some (a, b) -> to_keep !! j = Some (c, d) ->
        b <= c /\ a < c /\ b < d).
Proof.
  apply (keep_intervals_increasing [mkSegment 2 5] 10 1 [(0, 2); (5, 10)]).
  - discriminate.
  - apply speech_okb_true. reflexivity.
  - reflexivity.
  - reflexivity.
Defined.

(** The example of C1 on binary64 floats: the same gaps and the same
    three keep intervals, all of them exact. *)
Example keep_intervals_example_binary64 :
  cleaner64.keep_intervals [cleaner64.mkSegment 2 5] 10 1
  = cleaner64.Keep [(0%float, 2%float); (5%float, 10%float)]
      [(0%float, 0.5%float); (1.5%float, 5.5%float); (9.5%float, 10%float)].
Proof. vm_compute. reflexivity. Qed.




(** *** The filter graph *)

Section filter_graph_facts.

Variable fmt : Q -> string.

Lemma enumerate_snoc {A} (l : list A) (x : A) :
  enumerate (l ++ [x]) = enumerate l ++ [(length l, x)].
Proof.
  unfold enumerate. rewrite length_app. simpl.
  rewrite seq_app. simpl.
  rewrite zip_with_app by (by rewrite length_seq). done.
Qed.

(** One more keep interval adds its two trims and its concat input at
    the end. *)
Lemma filter_lists_snoc to_keep start end_ :
  filter_lists fmt (to_keep ++ [(start, end_)])
  = ((filter_parts fmt to_keep
        ++ [video_trim fmt (length to_keep) start end_])
       ++ [audio_trim fmt (length to_keep) start end_],
     concat_inputs fmt to_keep ++ [concat_input (length to_keep)]).
Proof.
  unfold filter_parts, concat_inputs, filter_lists.
  rewrite enumerate_snoc, fold_left_app. simpl.
  by destruct (fold_left (filter_step fmt) (enumerate to_keep) ([], [])).
Qed.

Lemma filter_lists_length to_keep :
  length (filter_parts fmt to_keep) = (2 * length to_keep)%nat
  /\ length (concat_inputs fmt to_keep) = length to_keep.
Proof.
  induction to_keep as [| [start end_] to_keep [IHp IHc]] using rev_ind.
  - done.
  - unfold filter_parts, concat_inputs. rewrite filter_lists_snoc. simpl.
    rewrite !length_app. simpl. lia.
Qed.

Lemma filter_lists_lookup to_keep : forall i start end_,
  to_keep !! i = Some (start, end_) ->
  filter_parts fmt to_keep !! (2 * i)%nat = Some (video_trim fmt i start end_)
  /\ filter_parts fmt to_keep !! (2 * i + 1)%nat
     = Some (audio_trim fmt i start end_)
  /\ concat_inputs fmt to_keep !! i = Some (concat_input i).
Proof.
  induction to_keep as [| [s e] to_keep IH] using rev_ind;
    intros i start end_ Hi; [done |].
  destruct (filter_lists_length to_keep) as [Hlp Hlc].
  unfold filter_parts, concat_inputs. rewrite filter_lists_snoc. simpl.
  destruct (decide (i < length to_keep)%nat) as [Hlt | Hge].
  - rewrite lookup_app_l in Hi by done.
    destruct (IH _ _ _ Hi) as (Hv & Ha & Hc).
    rewrite <- app_assoc.
    rewrite !lookup_app_l by lia. done.
  - apply lookup_lt_Some in Hi as Hlen. rewrite length_app in Hlen.
    simpl in Hlen. assert (i = length to_keep) as -> by lia.
    rewrite lookup_app_r in Hi by lia. rewrite Nat.sub_diag in Hi.
    injection Hi as -> ->.
    repeat split.
    + rewrite lookup_app_l by (rewrite length_app; simpl; lia).
      rewrite lookup_app_r by lia.
      by replace (2 * length to_keep - _)%nat with 0%nat by lia.
    + rewrite lookup_app_r by (rewrite length_app; simpl; lia).
      rewrite length_app. simpl.
      by replace (2 * length to_keep + 1 - _)%nat with 0%nat by lia.
    + rewrite lookup_app_r by lia.
      by replace (length to_keep - _)%nat with 0%nat by lia.
Qed.

(** Facts on strings. *)
Lemma append_assoc (a b c : string) :
  ((a +:+ b) +:+ c = a +:+ (b +:+ c))%string.
Proof.
  induction a as [| x a IH]; [done |].
  change (String x ((a +:+ b) +:+ c) = String x (a +:+ (b +:+ c)))%string.
  by rewrite IH.
Qed.

Lemma append_nil_r (a : string) : (a +:+ "" = a)%string.
Proof.
  induction a as [| x a IH]; [done |].
  change (String x (a +:+ "") = String x a)%string. by rewrite IH.
Qed.

Lemma list_ascii_of_string_app (a b : string) :
  list_ascii_of_string (a +:+ b)
  = list_ascii_of_string a ++ list_ascii_of_string b.
Proof.
  induction a as [| x a IH]; [done |].
  change (x :: list_ascii_of_string (a +:+ b)
          = x :: (list_ascii_of_string a ++ list_ascii_of_string b)).
  by rewrite IH.
Qed.

Lemma append_inj_r (a b c : string) :
  (a +:+ c = b +:+ c)%string -> a = b.
Proof.
  intros Heq. apply (f_equal list_ascii_of_string) in Heq.
  rewrite !list_ascii_of_string_app in Heq. apply app_inv_tail in Heq.
  rewrite <- (string_of_list_ascii_of_string a).
  rewrite <- (string_of_list_ascii_of_string b). by rewrite Heq.
Qed.

(** A label names one position. *)
Lemma label_inj (open : string) (i j : nat) :
  (open +:+ pretty i +:+ "]" = open +:+ pretty j +:+ "]")%string -> i = j.
Proof.
  intros Heq. apply String.app_inj in Heq. apply append_inj_r in Heq.
  by apply pretty_nat_inj in Heq.
Qed.

Lemma concat_cons (h : string) (t : list string) :
  (String.concat "" (h :: t) = h +:+ String.concat "" t)%string.
Proof. destruct t; [by rewrite append_nil_r | done]. Qed.

Lemma concat_snoc (l : list string) (x : string) :
  (String.concat "" (l ++ [x]) = String.concat "" l +:+ x)%string.
Proof.
  induction l as [| h t IH]; [done |].
  rewrite <- app_comm_cons, !concat_cons, IH. by rewrite append_assoc.
Qed.

(** [";".join(parts) + ";"] closes every part with a semicolon, when
    there is a part. *)
Lemma join_closed (l : list string) :
  l <> [] ->
  (String.concat ";" l +:+ ";"
   = String.concat "" ((fun p => p +:+ ";") <$> l))%string.
Proof.
  induction l as [| h t IH]; [done |]. intros _.
  rewrite fmap_cons, concat_cons.
  destruct t as [| h2 t].
  - by rewrite append_nil_r.
  - change (String.concat ";" (h :: h2 :: t))
      with (h +:+ ";" +:+ String.concat ";" (h2 :: t))%string.
    rewrite <- IH by done. by rewrite !append_assoc.
Qed.

Lemma trims_from_snoc to_keep : forall i start end_,
  (trims_from fmt i (to_keep ++ [(start, end_)])
   = trims_from fmt i to_keep
     +:+ "[0:v]trim=start=" +:+ fmt start +:+ ":end=" +:+ fmt end_
     +:+ ",setpts=PTS-STARTPTS[v" +:+ pretty (i + length to_keep)%nat +:+ "];"
     +:+ "[0:a]atrim=start=" +:+ fmt start +:+ ":end=" +:+ fmt end_
     +:+ ",asetpts=PTS-STARTPTS[a" +:+ pretty (i + length to_keep)%nat
     +:+ "];")%string.
Proof.
  induction to_keep as [| [s e] to_keep IH]; intros i start end_.
  - cbn [app trims_from length]. rewrite Nat.add_0_r.
    change ("" +:+ ?x)%string with x.
    by rewrite ?append_assoc, ?append_nil_r.
  - cbn [app trims_from length]. rewrite IH, !append_assoc.
    by replace (S i + length to_keep)%nat with (i + S (length to_keep))%nat
      by lia.
Qed.

Lemma pairs_from_snoc n : forall i,
  (pairs_from i (S n)
   = pairs_from i n +:+ "[v" +:+ pretty (i + n)%nat
     +:+ "][a" +:+ pretty (i + n)%nat +:+ "]")%string.
Proof.
  induction n as [| n IH]; intros i.
  - cbn [pairs_from]. rewrite Nat.add_0_r.
    change ("" +:+ ?x)%string with x.
    by rewrite ?append_assoc, ?append_nil_r.
  - change (pairs_from i (S (S n)))
      with ("[v" +:+ pretty i +:+ "][a" +:+ pretty i +:+ "]"
              +:+ pairs_from (S i) (S n))%string.
    rewrite IH. cbn [pairs_from]. rewrite !append_assoc.
    by replace (S i + n)%nat with (i + S n)%nat by lia.
Qed.

(** The text of the two lists. *)
Lemma filter_lists_text to_keep :
  (String.concat "" ((fun p => p +:+ ";") <$> filter_parts fmt to_keep)
   = trims_from fmt 0 to_keep)%string
  /\ String.concat "" (concat_inputs fmt to_keep)
     = pairs_from 0 (length to_keep).
Proof.
  induction to_keep as [| [start end_] to_keep [IHp IHc]] using rev_ind;
    [done |].
  unfold filter_parts, concat_inputs. rewrite filter_lists_snoc.
  cbn [fst snd]. split.
  - rewrite !fmap_app. cbn [fmap list_fmap]. rewrite !concat_snoc.
    rewrite IHp, trims_from_snoc.
    unfold video_trim, audio_trim.
    rewrite !append_assoc. reflexivity.
  - rewrite concat_snoc, IHc, length_app, Nat.add_1_r, pairs_from_snoc.
    unfold concat_input. by rewrite ?append_assoc.
Qed.

(** C8.  For a non-empty keep list the filter graph has, for the keep
    interval at position [i], exactly its video trim at position [2i] and
    its audio trim at position [2i+1] of [filter_parts], over the bounds
    of that interval and labelled [vi] and [ai], and the pair [[vi][ai]]
    at position [i] of [concat_inputs]; there is nothing else in either
    list, different positions have different labels, and the text handed
    to ffmpeg is the trims in the order of the keep intervals, the pairs
    in the same order, and the concat operation over as many segments as
    there are keep intervals. *)
Theorem filter_graph_pairs to_keep :
  to_keep <> [] ->
  length (filter_parts fmt to_keep) = (2 * length to_keep)%nat
  /\ length (concat_inputs fmt to_keep) = length to_keep
  /\ (forall i start end_, to_keep !! i = Some (start, end_) ->
        filter_parts fmt to_keep !! (2 * i)%nat
        = Some ("[0:v]trim=start=" +:+ fmt start +:+ ":end=" +:+ fmt end_
                 +:+ ",setpts=PTS-STARTPTS[v" +:+ pretty i +:+ "]")%string
        /\ filter_parts fmt to_keep !! (2 * i + 1)%nat
           = Some ("[0:a]atrim=start=" +:+ fmt start +:+ ":end=" +:+ fmt end_
                    +:+ ",asetpts=PTS-STARTPTS[a" +:+ pretty i +:+ "]")%string
        /\ concat_inputs fmt to_keep !! i
           = Some ("[v" +:+ pretty i +:+ "][a" +:+ pretty i +:+ "]")%string)
  /\ (forall i j : nat, i <> j ->
        ("[v" +:+ pretty i +:+ "]" <> "[v" +:+ pretty j +:+ "]")%string
        /\ ("[a" +:+ pretty i +:+ "]" <> "[a" +:+ pretty j +:+ "]")%string)
  /\ filter_complex fmt to_keep = graph_text fmt to_keep.
Proof.
  intros Hne. destruct (filter_lists_length to_keep) as [Hp Hc].
  split; [done |]. split; [done |]. split; [| split].
  - intros i start end_ Hi.
    by destruct (filter_lists_lookup to_keep i start end_ Hi)
      as (-> & -> & ->).
  - intros i j Hij. split; intros Heq; by apply label_inj in Heq.
  - destruct (filter_lists_text to_keep) as [Hparts Hinputs].
    unfold filter_complex, graph_text.
    rewrite <- Hparts, <- Hinputs, <- join_closed.
    + by rewrite !append_assoc.
    + intros Hnil. rewrite Hnil in Hp. simpl in Hp.
      destruct to_keep; [done | simpl in Hp; lia].
Qed.

(** ffmpeg is only ever run on the filter graph of a non-empty keep
    list, the one the interval computation ended in. *)
Lemma remove_video_silence_runs_ffmpeg segments T g graph :
  remove_video_silence fmt segments T g = RunFfmpeg graph ->
  exists to_delete to_keep,
    keep_intervals segments T g = Keep to_delete to_keep
    /\ to_keep <> []
    /\ graph = filter_complex fmt to_keep.
Proof.
  unfold remove_video_silence.
  destruct (keep_intervals segments T g) as [| | | to_delete to_keep] eqn:Hrun;
    try done.
  intros [= <-]. exists to_delete, to_keep. split; [done |]. split; [| done].
  by apply keep_intervals_Keep_nonempty in Hrun.
Qed.

End filter_graph_facts.

Lemma filter_graph_pairs_witness :
  let to_keep := [(0, 1 # 2); (3 # 2, 11 # 2); (19 # 2, 10)] in
  length (filter_parts fmt_tenths to_keep) = (2 * length to_keep)%nat
  /\ length (concat_inputs fmt_tenths to_keep) = length to_keep
  /\ (forall i start end_, to_keep !! i = Some (start, end_) ->
        filter_parts fmt_tenths to_keep !! (2 * i)%nat
        = Some ("[0:v]trim=start=" +:+ fmt_tenths start
                 +:+ ":end=" +:+ fmt_tenths end_
                 +:+ ",setpts=PTS-STARTPTS[v" +:+ pretty i +:+ "]")%string
        /\ filter_parts fmt_tenths to_keep !! (2 * i + 1)%nat
           = Some ("[0:a]atrim=start=" +:+ fmt_tenths start
                    +:+ ":end=" +:+ fmt_tenths end_
                    +:+ ",asetpts=PTS-STARTPTS[a" +:+ pretty i +:+ "]")%string
        /\ concat_inputs fmt_tenths to_keep !! i
           = Some ("[v" +:+ pretty i +:+ "][a" +:+ pretty i +:+ "]")%string)
  /\ (forall i j : nat, i <> j ->
        ("[v" +:+ pretty i +:+ "]" <> "[v" +:+ pretty j +:+ "]")%string
        /\ ("[a" +:+ pretty i +:+ "]" <> "[a" +:+ pretty j +:+ "]")%string)
  /\ filter_complex fmt_tenths to_keep = graph_text fmt_tenths to_keep.
Proof.
  apply (filter_graph_pairs fmt_tenths
           [(0, 1 # 2); (3 # 2, 11 # 2); (19 # 2, 10)]).
  discriminate.
Defined.

(** The filter graph for the three keep intervals of the example
    above. *)
Example filter_complex_example :
  filter_complex fmt_tenths [(0, 1 # 2); (3 # 2, 11 # 2); (19 # 2, 10)]
  = ("[0:v]trim=start=0.0:end=0.5,setpts=PTS-STARTPTS[v0];"
     +:+ "[0:a]atrim=start=0.0:end=0.5,asetpts=PTS-STARTPTS[a0];"
     +:+ "[0:v]trim=start=1.5:end=5.5,setpts=PTS-STARTPTS[v1];"
     +:+ "[0:a]atrim=start=1.5:end=5.5,asetpts=PTS-STARTPTS[a1];"
     +:+ "[0:v]trim=start=9.5:end=10.0,setpts=PTS-STARTPTS[v2];"
     +:+ "[0:a]atrim=start=9.5:end=10.0,asetpts=PTS-STARTPTS[a2];"
     +:+ "[v0][a0][v1][a1][v2][a2]concat=n=3:v=1:a=1[outv][outa]")%string.
Proof. vm_compute. reflexivity. Qed.

End cleaner_facts.

(** ** Part 5: pass 1 of the subtitle editor *)

Section refine_facts.

Import editor.

Implicit Types (subs : list Subtitle).
Implicit Types (results : gmap nat ModifiedSentence) (st : Reassembly).

(** *** The reassembly loop *)

Lemma sorted_indices_elem_of results k :
  k ∈ sorted_indices results <-> is_Some (results !! k).
Proof.
  unfold sorted_indices. rewrite merge_sort_Permutation.
  rewrite elem_of_elements. apply elem_of_dom.
Qed.

Lemma sorted_indices_sorted results :
  StronglySorted lt (sorted_indices results).
Proof.
  unfold sorted_indices.
  assert (NoDup (merge_sort Nat.le (elements (dom results)))) as Hnd.
  { rewrite merge_sort_Permutation. apply NoDup_elements. }
  assert (StronglySorted Nat.le (merge_sort Nat.le (elements (dom results))))
    as Hs by apply (StronglySorted_merge_sort _).
  revert Hnd Hs. generalize (merge_sort Nat.le (elements (dom results))).
  induction l as [| x l IH]; intros Hnd Hs; [constructor |].
  apply NoDup_cons in Hnd as [Hx Hnd].
  apply StronglySorted_cons in Hs as [Hall Hs].
  constructor; [by apply IH |].
  apply Forall_forall. intros y Hy.
  rewrite Forall_forall in Hall. specialize (Hall y Hy).
  assert (x <> y) by (intros ->; done). unfold Nat.le in Hall. lia.
Qed.

(** The indices before and after a position that has a result. *)
Lemma sorted_indices_split results i :
  is_Some (results !! i) ->
  exists before after,
    sorted_indices results = before ++ i :: after
    /\ Forall (fun j => j < i)%nat before
    /\ Forall (fun j => i < j)%nat after.
Proof.
  intros Hi. apply sorted_indices_elem_of in Hi.
  apply list_elem_of_split in Hi as (before & after & Heq).
  exists before, after. split; [done |].
  pose proof (sorted_indices_sorted results) as Hs. rewrite Heq in Hs.
  apply StronglySorted_app in Hs as (Hcross & _ & Hafter).
  apply StronglySorted_cons in Hafter as [Hafter _].
  split; [| done].
  apply Forall_forall. intros j Hj. apply Hcross; [done | left].
Qed.

Lemma merge_loop_app results l1 l2 st :
  merge_loop results (l1 ++ l2) st
  = st1 ← merge_loop results l1 st; merge_loop results l2 st1.
Proof.
  revert st. induction l1 as [| j l1 IH]; intros st; simpl; [done |].
  destruct (merge_step results st j) as [st' |]; simpl; [apply IH | done].
Qed.

(** Closes the frame goals for a turn that ended by writing line [j]:
    the state is read off the equation, the line written is the only one
    that differs, and the skip set grew by [j + 1] at most. *)
Local Ltac after_write Hstep :=
  injection Hstep as <-; simpl; rewrite length_insert;
  repeat split;
  [ intros ? ?; by rewrite list_lookup_insert_ne
  | set_solver
  | set_solver ].

(** What one turn of the loop leaves alone. *)
Lemma merge_step_frame results st j st' :
  merge_step results st j = Some st' ->
  length (subtitles st') = length (subtitles st)
  /\ final_subtitles st' = final_subtitles st
  /\ (forall k, k <> j -> subtitles st' !! k = subtitles st !! k)
  /\ skip_indices st ⊆ skip_indices st'
  /\ (forall k, k ∈ skip_indices st' ->
        k ∈ skip_indices st \/ k = (j + 1)%nat).
Proof.
  unfold merge_step. intros Hstep.
  destruct (decide (j ∈ skip_indices st)).
  { injection Hstep as <-. set_solver. }
  destruct (results !! j) as [data |]; simpl in Hstep; [| done].
  destruct (subtitles st !! j) as [sub |]; simpl in Hstep; [| done].
  destruct (if should_merge_next data then results !! (j + 1)%nat else None)
    as [next_data |]; [| after_write Hstep].
  destruct (decide (length (output data ++ output next_data) <= 30)%nat);
    [| after_write Hstep].
  destruct (subtitles st !! (j + 1)%nat) as [next_sub |];
    simpl in Hstep; [| done].
  after_write Hstep.
Qed.

Lemma merge_loop_frame results l : forall st st',
  merge_loop results l st = Some st' ->
  length (subtitles st') = length (subtitles st)
  /\ final_subtitles st' = final_subtitles st
  /\ (forall k, k ∉ l -> subtitles st' !! k = subtitles st !! k)
  /\ skip_indices st ⊆ skip_indices st'
  /\ (forall k, k ∈ skip_indices st' ->
        k ∈ skip_indices st \/ exists j, j ∈ l /\ k = (j + 1)%nat).
Proof.
  induction l as [| j l IH]; intros st st' Hloop; simpl in Hloop.
  - injection Hloop as <-. set_solver.
  - destruct (merge_step results st j) as [st1 |] eqn:Hstep;
      simpl in Hloop; [| done].
    apply merge_step_frame in Hstep as (Hlen1 & Hfin1 & Hsub1 & Hinc1 & Hskip1).
    apply IH in Hloop as (Hlen & Hfin & Hsub & Hinc & Hskip).
    split; [congruence |]. split; [congruence |].
    split; [| split].
    + intros k Hk. apply not_elem_of_cons in Hk as [Hkj Hkl].
      rewrite Hsub by done. by apply Hsub1.
    + set_solver.
    + intros k Hk. destruct (Hskip k Hk) as [Hk1 | (j' & Hj' & ->)].
      * destruct (Hskip1 k Hk1) as [? | ->]; [by left | right].
        exists j. split; [left | done].
      * right. exists j'. split; [by right | done].
Qed.

(** Nothing is ever appended to [final_subtitles]. *)
Lemma reassemble_final_subtitles results subs st :
  reassemble results subs = Some st -> final_subtitles st = [].
Proof.
  intros Hrun. by apply merge_loop_frame in Hrun as (_ & -> & _).
Qed.

(** One turn of the loop at a position that is not skipped. *)
Lemma merge_step_at results st i data sub st' :
  merge_step results st i = Some st' ->
  i ∉ skip_indices st ->
  results !! i = Some data ->
  subtitles st !! i = Some sub ->
  match merges_with results data i with
  | Some next_data =>
      skip_indices st' = {[ (i + 1)%nat ]} ∪ skip_indices st
      /\ exists next_sub,
           subtitles st !! (i + 1)%nat = Some next_sub
           /\ subtitles st' !! i
              = Some (set_end (end_ next_sub)
                        (set_content (output data ++ output next_data) sub))
  | None =>
      skip_indices st' = skip_indices st
      /\ subtitles st' !! i = Some (set_content (output data) sub)
  end.
Proof.
  intros Hstep Hskip Hdata Hsub.
  apply lookup_lt_Some in Hsub as Hlt.
  unfold merge_step in Hstep. rewrite decide_False in Hstep by done.
  rewrite Hdata, Hsub in Hstep. simpl in Hstep. unfold merges_with.
  destruct (if should_merge_next data then results !! (i + 1)%nat else None)
    as [next_data |]; simpl.
  - destruct (decide (length (output data ++ output next_data) <= 30)%nat).
    + destruct (subtitles st !! (i + 1)%nat) as [next_sub |];
        simpl in Hstep; [| done].
      injection Hstep as <-. simpl. split; [done |].
      exists next_sub. split; [done |]. by rewrite list_lookup_insert_eq.
    + injection Hstep as <-. simpl. by rewrite list_lookup_insert_eq.
  - injection Hstep as <-. simpl. by rewrite list_lookup_insert_eq.
Qed.


(** *** The properties of pass 1 *)

(** C5 (the code on every file with a subtitle).  The dispatch fails as
    a unit: [ai_refine_subtitles] raises [NameError] at line 229 for every
    non-empty list of subtitles, before a task is submitted, so no
    position gets a result and the fallback of lines 237 and 239 is never
    reached. *)
Theorem dispatch_raises_name_error subs :
  subs <> [] -> ai_refine_subtitles subs = RaisesNameError.
Proof. by destruct subs. Qed.

Lemma dispatch_raises_name_error_witness :
  ai_refine_subtitles (two_lines "fifteen letters" "and 15 for this")
  = RaisesNameError.
Proof.
  apply (dispatch_raises_name_error
           (two_lines "fifteen letters" "and 15 for this")).
  discriminate.
Defined.


(** C2 (the code at a failing input).  On three lines the function
    raises [NameError], so it returns no sequence at all.  The reassembly
    loop of lines 245-262 would not return the lines either: run on the
    result mapping in which every line asks for a merge, it ends with
    [final_subtitles] empty, although the first and the third position
    are not consumed by a merge; it rewrites the lines in place and never
    appends one of them to the list it returns, and it assigns no index.
    That list is empty after the loop on every result mapping. *)
Theorem ai_refine_subtitles_returns_nothing :
  ai_refine_subtitles three_lines = RaisesNameError
  /\ (exists st,
        reassemble (asking_merge three_lines) three_lines = Some st
        /\ final_subtitles st = []
        /\ (0%nat ∉ skip_indices st)
        /\ 1%nat ∈ skip_indices st
        /\ (2%nat ∉ skip_indices st))
  /\ (forall results subs st,
        reassemble results subs = Some st -> final_subtitles st = []).
Proof.
  split; [reflexivity |]. split.
  - eexists. split; [vm_compute; reflexivity |].
    split; [reflexivity |].
    repeat split; apply (bool_decide_unpack _); vm_compute; reflexivity.
  - apply reassemble_final_subtitles.
Qed.

(** C3 (the code at a failing input).  On two adjacent lines the
    function raises [NameError] before the merge step.  The merge step
    itself, run on the result mapping in which both lines ask for a
    merge, keeps to the bound of 30 code points on the lines in place: 15
    and 15 code points are joined into the first line, which then spans
    both lines, and the second position is consumed; 15 and 16 code points
    are left as two lines.  In both cases the list the function hands on
    is empty: the one merged line, or the two independent lines, are not
    in the output. *)
Theorem merged_line_is_not_returned :
  ai_refine_subtitles (two_lines "fifteen letters" "and 15 for this")
  = RaisesNameError
  /\ after_loop (asking_merge (two_lines "fifteen letters" "and 15 for this"))
       (two_lines "fifteen letters" "and 15 for this")
     = Some ([ mkSubtitle 1 0 2000000
                 (lit "fifteen lettersand 15 for this") [];
               mkSubtitle 2 1000000 2000000 (lit "and 15 for this") [] ],
             [], [1%nat])
  /\ after_loop (asking_merge (two_lines "fifteen letters" "and 16 for this."))
       (two_lines "fifteen letters" "and 16 for this.")
     = Some ([ mkSubtitle 1 0 1000000 (lit "fifteen letters") [];
               mkSubtitle 2 1000000 2000000 (lit "and 16 for this.") [] ],
             [], []).
Proof.
  split; [reflexivity |]. split; vm_compute; reflexivity.
Qed.

End refine_facts.

(** ** Part 6: pass 2 of the subtitle editor *)

Section review_facts.

Import editor.

Implicit Types (subs chunk : list Subtitle) (c : ChunkCorrection).
Implicit Types (corrections : list ChunkCorrection).

(** *** One correction *)

Lemma set_content_same (line : Subtitle) :
  set_content (content line) line = line.
Proof. by destruct line. Qed.

Lemma retexted_refl corrections (line : Subtitle) :
  retexted corrections line line.
Proof.
  split; [| by left]. unfold only_text_differs. by rewrite set_content_same.
Qed.

Lemma Forall2_retexted_refl corrections chunk :
  Forall2 (retexted corrections) chunk chunk.
Proof.
  apply Forall_Forall2_diag, Forall_forall. intros; apply retexted_refl.
Qed.

Lemma retexted_step c corrections (line line1 line2 : Subtitle) :
  retexted [c] line line1 ->
  retexted corrections line1 line2 ->
  retexted (c :: corrections) line line2.
Proof.
  unfold retexted, only_text_differs. intros [Hf1 Hc1] [Hf2 Hc2]. split.
  - rewrite Hf2, Hf1. by destruct line.
  - assert (index line1 = index line) as Hidx by (by rewrite Hf1).
    destruct Hc2 as [Hsame | (c' & Hin & Hi & Ht)].
    + destruct Hc1 as [Hsame1 | (c' & Hin & Hi & Ht)].
      * left. congruence.
      * right. exists c'. apply list_elem_of_singleton in Hin as ->.
        split; [left |]. split; congruence.
    + right. exists c'. split; [by right |]. split; congruence.
Qed.

Lemma Forall2_retexted_step c corrections chunk : forall chunk1 chunk2,
  Forall2 (retexted [c]) chunk chunk1 ->
  Forall2 (retexted corrections) chunk1 chunk2 ->
  Forall2 (retexted (c :: corrections)) chunk chunk2.
Proof.
  induction chunk as [| line chunk IH]; intros chunk1 chunk2 H1 H2.
  - apply Forall2_nil_inv_l in H1 as ->.
    apply Forall2_nil_inv_l in H2 as ->. constructor.
  - apply Forall2_cons_inv_l in H1 as (line1 & rest1 & Hl1 & Hr1 & ->).
    apply Forall2_cons_inv_l in H2 as (line2 & rest2 & Hl2 & Hr2 & ->).
    constructor; [by eapply retexted_step | by eapply IH].
Qed.

(** The three ways a correction can go. *)
Lemma apply_correction_cases chunk n c :
  (Forall (fun s => index s <> c_index c) chunk
   /\ apply_correction (chunk, n) c = (chunk, n))
  \/ exists k target,
       chunk !! k = Some target
       /\ index target = c_index c
       /\ (forall j y, chunk !! j = Some y -> (j < k)%nat ->
             index y <> c_index c)
       /\ ((content target = c_content c
            /\ apply_correction (chunk, n) c = (chunk, n))
           \/ (content target <> c_content c
               /\ apply_correction (chunk, n) c
                  = (<[k := set_content (c_content c) target]> chunk, S n))).
Proof.
  unfold apply_correction.
  destruct (list_find (fun s => index s = c_index c) chunk)
    as [[k target] |] eqn:Hfind.
  - right. apply list_find_Some in Hfind as (Hk & Hidx & Hfirst).
    exists k, target. repeat split; try done.
    destruct (decide (content target <> c_content c)) as [Hne | Heq].
    + by right.
    + left. split; [| done].
      by destruct (decide (content target = c_content c)).
  - left. by apply list_find_None in Hfind.
Qed.

Lemma apply_correction_retexted chunk n c :
  Forall2 (retexted [c]) chunk (fst (apply_correction (chunk, n) c)).
Proof.
  pose proof (Forall2_retexted_refl [c] chunk) as Hrefl.
  destruct (apply_correction_cases chunk n c)
    as [[_ ->] | (k & target & Hk & Hidx & _ & [[_ ->] | [Hne ->]])];
    simpl; try done.
  rewrite <- (list_insert_id chunk k target) at 1 by done.
  apply Forall2_insert; [done |]. split; [done |].
  right. exists c. split; [left |]. done.
Qed.

Lemma apply_corrections_loop_retexted corrections : forall chunk n,
  Forall2 (retexted corrections) chunk
          (fst (fold_left apply_correction corrections (chunk, n))).
Proof.
  induction corrections as [| c corrections IH]; intros chunk n;
    cbn [fold_left].
  - apply Forall2_retexted_refl.
  - pose proof (apply_correction_retexted chunk n c) as H1.
    destruct (apply_correction (chunk, n) c) as [chunk1 n1].
    by eapply Forall2_retexted_step.
Qed.

(** *** One window *)

Section windows.

Variable review : nat -> list Subtitle -> option (list ChunkCorrection).

Lemma reviewed_retexted i chunk :
  Forall2 (retexted (default [] (review i chunk))) chunk
          (reviewed review i chunk).
Proof.
  unfold reviewed. destruct (review i chunk) as [corrections |]; simpl.
  - apply apply_corrections_loop_retexted.
  - apply Forall2_retexted_refl.
Qed.

Lemma reviewed_length i chunk :
  length (reviewed review i chunk) = length chunk.
Proof. symmetry. eapply Forall2_length, reviewed_retexted. Qed.

Lemma chunk_at_length i subs :
  length (chunk_at i subs) = (CHUNK_SIZE `min` (length subs - i))%nat.
Proof. unfold chunk_at. by rewrite length_take, length_drop. Qed.

(** A list is what precedes a window, the window, and what follows. *)
Lemma window_split i subs :
  subs = take i subs ++ chunk_at i subs ++ drop (i + CHUNK_SIZE) subs.
Proof.
  unfold chunk_at. rewrite <- drop_drop, (take_drop CHUNK_SIZE).
  by rewrite take_drop.
Qed.

Lemma review_chunk_beyond subs i :
  (length subs <= i)%nat -> review_chunk review subs i = subs.
Proof.
  intros Hi. unfold review_chunk.
  assert (reviewed review i (chunk_at i subs) = []) as ->.
  { apply length_zero_iff_nil. rewrite reviewed_length, chunk_at_length. lia. }
  rewrite take_ge, drop_ge by lia. by rewrite app_nil_r.
Qed.

Lemma review_chunk_take subs i :
  take i (review_chunk review subs i) = take i subs.
Proof.
  destruct (decide (length subs <= i)%nat) as [Hge | Hlt].
  - by rewrite review_chunk_beyond.
  - unfold review_chunk. apply take_app_length'.
    rewrite length_take. lia.
Qed.

Lemma review_chunk_window subs i :
  chunk_at i (review_chunk review subs i)
  = reviewed review i (chunk_at i subs).
Proof.
  destruct (decide (length subs <= i)%nat) as [Hge | Hlt].
  - rewrite review_chunk_beyond by done. symmetry.
    assert (chunk_at i subs = []) as ->.
    { apply length_zero_iff_nil. rewrite chunk_at_length. lia. }
    apply length_zero_iff_nil. by rewrite reviewed_length.
  - unfold review_chunk, chunk_at at 1.
    rewrite drop_app_length' by (rewrite length_take; lia).
    pose proof (reviewed_length i (chunk_at i subs)) as Hlen.
    rewrite chunk_at_length in Hlen.
    destruct (decide (i + CHUNK_SIZE <= length subs)%nat) as [Hfull | Hshort].
    + apply take_app_length'. lia.
    + rewrite drop_ge, app_nil_r by lia. apply take_ge. lia.
Qed.

Lemma review_chunk_drop subs i :
  drop (i + CHUNK_SIZE) (review_chunk review subs i)
  = drop (i + CHUNK_SIZE) subs.
Proof.
  destruct (decide (length subs <= i)%nat) as [Hge | Hlt].
  - by rewrite review_chunk_beyond.
  - unfold review_chunk.
    pose proof (reviewed_length i (chunk_at i subs)) as Hlen.
    rewrite chunk_at_length in Hlen.
    destruct (decide (i + CHUNK_SIZE <= length subs)%nat) as [Hfull | Hshort].
    + rewrite app_assoc. apply drop_app_length'.
      rewrite length_app, length_take. lia.
    + rewrite (drop_ge subs) by lia. apply drop_ge.
      rewrite !length_app, length_take. simpl. lia.
Qed.

Lemma review_chunk_retexted subs i :
  Forall2 (retexted (default [] (review i (chunk_at i subs))))
          subs (review_chunk review subs i).
Proof.
  rewrite (window_split i subs) at 2. unfold review_chunk.
  apply Forall2_app; [apply Forall2_retexted_refl |].
  apply Forall2_app; [apply reviewed_retexted | apply Forall2_retexted_refl].
Qed.

Lemma review_chunk_length subs i :
  length (review_chunk review subs i) = length subs.
Proof. symmetry. eapply Forall2_length, review_chunk_retexted. Qed.

(** A window touches no line outside itself. *)
Lemma review_chunk_outside subs i k :
  ~ (i <= k < i + CHUNK_SIZE)%nat ->
  review_chunk review subs i !! k = subs !! k.
Proof.
  intros Hout. destruct (decide (k < i)%nat) as [Hlt | Hge].
  - rewrite <- (lookup_take_lt (review_chunk review subs i) i k) by done.
    rewrite review_chunk_take. by apply lookup_take_lt.
  - replace k with (i + CHUNK_SIZE + (k - (i + CHUNK_SIZE)))%nat by lia.
    rewrite <- !lookup_drop. by rewrite review_chunk_drop.
Qed.

Lemma chunk_at_ext j subs subs' :
  (forall k, (j <= k < j + CHUNK_SIZE)%nat -> subs !! k = subs' !! k) ->
  chunk_at j subs = chunk_at j subs'.
Proof.
  intros Hsame. apply list_eq. intros k. unfold chunk_at.
  destruct (decide (k < CHUNK_SIZE)%nat) as [Hlt | Hge].
  - rewrite !lookup_take_lt, !lookup_drop by done. apply Hsame. lia.
  - by rewrite !lookup_take_ge by lia.
Qed.

Lemma review_chunk_other subs i j :
  (j + CHUNK_SIZE <= i \/ i + CHUNK_SIZE <= j)%nat ->
  chunk_at j (review_chunk review subs i) = chunk_at j subs.
Proof.
  intros Hdisj. apply chunk_at_ext. intros k Hk.
  apply review_chunk_outside. lia.
Qed.

End windows.

(** *** The loop over the windows *)

Section review_loop.

Variable review : nat -> list Subtitle -> option (list ChunkCorrection).

Lemma only_text_differs_trans (line1 line2 line3 : Subtitle) :
  only_text_differs line1 line2 -> only_text_differs line2 line3 ->
  only_text_differs line1 line3.
Proof.
  unfold only_text_differs. intros H12 H23. rewrite H23, H12.
  by destruct line1.
Qed.

Lemma review_loop_only_text l : forall subs,
  Forall2 only_text_differs subs (fold_left (review_chunk review) l subs).
Proof.
  induction l as [| i l IH]; intros subs; cbn [fold_left].
  - apply Forall_Forall2_diag, Forall_forall. intros line _.
    unfold only_text_differs. by rewrite set_content_same.
  - apply Forall2_same_length_lookup. split.
    + rewrite <- (Forall2_length _ _ _ (IH _)).
      by rewrite review_chunk_length.
    + intros k line line3 Hline Hline3.
      pose proof (review_chunk_retexted review subs i) as H1.
      destruct (Forall2_lookup_l _ _ _ _ _ H1 Hline) as (line2 & Hline2 & [H12 _]).
      pose proof (Forall2_lookup_lr _ _ _ _ _ _ (IH _) Hline2 Hline3) as H23.
      by eapply only_text_differs_trans.
Qed.

(** Windows that do not meet a window leave it as it is. *)
Lemma review_loop_other l j : forall subs,
  Forall (fun i => j + CHUNK_SIZE <= i \/ i + CHUNK_SIZE <= j)%nat l ->
  chunk_at j (fold_left (review_chunk review) l subs) = chunk_at j subs.
Proof.
  induction l as [| i l IH]; intros subs Hl; cbn [fold_left]; [done |].
  apply Forall_cons in Hl as [Hi Hl].
  rewrite IH by done. by apply review_chunk_other.
Qed.

(** Each window of the list is reviewed once, as it was at the start. *)
Lemma review_loop_window l i : forall subs,
  StronglySorted (fun a b => a + CHUNK_SIZE <= b)%nat l ->
  i ∈ l ->
  chunk_at i (fold_left (review_chunk review) l subs)
  = reviewed review i (chunk_at i subs).
Proof.
  induction l as [| a l IH]; intros subs Hsorted Hin; cbn [fold_left].
  - by apply elem_of_nil in Hin.
  - apply StronglySorted_cons in Hsorted as [Hall Hsorted].
    destruct (decide (i = a)) as [-> | Hne].
    + rewrite review_loop_other; [apply review_chunk_window |].
      eapply Forall_impl; [exact Hall |]. simpl. intros; lia.
    + apply elem_of_cons in Hin as [? | Hin]; [done |].
      rewrite IH by done. f_equal. apply review_chunk_other.
      rewrite Forall_forall in Hall. specialize (Hall i Hin). lia.
Qed.

Lemma range_step_sorted n w :
  StronglySorted (fun a b => a + w <= b)%nat (range_step n w).
Proof.
  unfold range_step. generalize ((n + w - 1) / w)%nat. generalize 0%nat.
  intros a m. revert a. induction m as [| m IH]; intros a; simpl.
  - constructor.
  - constructor; [apply IH |].
    apply Forall_forall. intros b Hb.
    apply list_elem_of_fmap in Hb as (q & -> & Hq).
    apply elem_of_seq in Hq. nia.
Qed.

Lemma elem_of_range_step n w i :
  i ∈ range_step n w <-> (exists q, i = q * w /\ q < (n + w - 1) / w)%nat.
Proof.
  unfold range_step. rewrite list_elem_of_fmap.
  split; intros (q & Hi & Hq); exists q;
    (split; [done |]); revert Hq; rewrite elem_of_seq; lia.
Qed.

(** The window a position lies in. *)
Lemma window_of_position n k :
  (k < n)%nat ->
  exists i, i ∈ range_step n CHUNK_SIZE /\ (i <= k < i + CHUNK_SIZE)%nat.
Proof.
  intros Hk. exists (k / CHUNK_SIZE * CHUNK_SIZE)%nat.
  assert (CHUNK_SIZE <> 0)%nat as Hw by done.
  pose proof (Nat.div_mod_eq k CHUNK_SIZE) as Hdiv.
  pose proof (Nat.mod_upper_bound k CHUNK_SIZE Hw) as Hmod.
  split; [| lia].
  apply elem_of_range_step. exists (k / CHUNK_SIZE)%nat. split; [done |].
  apply Nat.lt_le_trans with (S (k / CHUNK_SIZE)); [lia |].
  apply Nat.div_le_lower_bound; [done | lia].
Qed.

Lemma chunk_at_lookup i subs k :
  (i <= k < i + CHUNK_SIZE)%nat ->
  chunk_at i subs !! (k - i)%nat = subs !! k.
Proof.
  intros Hk. unfold chunk_at.
  rewrite lookup_take_lt, lookup_drop by lia. f_equal. lia.
Qed.

End review_loop.

(** *** The properties of pass 2 *)








(** C9.  [ai_review_chunks] returns as many lines as it was given, in
    the same order, each with the index, start, end and proprietary field
    it had.  A line whose text changed lies in a window whose request
    succeeded with a correction that names the line's index and carries
    the new text.  Every window ends as its own request leaves it, whatever
    happened to the other windows: exactly as it was when the request
    failed, and with the corrections of the answer applied in order when
    it succeeded. *)
Theorem ai_review_chunks_frame review subs :
  length (ai_review_chunks review subs) = length subs
  /\ (forall k line, subs !! k = Some line ->
        exists line',
          ai_review_chunks review subs !! k = Some line'
          /\ index line' = index line
          /\ start line' = start line
          /\ end_ line' = end_ line
          /\ proprietary line' = proprietary line
          /\ (content line' <> content line ->
                exists i corrections c,
                  i ∈ range_step (length subs) CHUNK_SIZE
                  /\ (i <= k < i + CHUNK_SIZE)%nat
                  /\ review i (chunk_at i subs) = Some corrections
                  /\ c ∈ corrections
                  /\ c_index c = index line
                  /\ c_content c = content line'))
  /\ (forall i, i ∈ range_step (length subs) CHUNK_SIZE ->
        (review i (chunk_at i subs) = None ->
           chunk_at i (ai_review_chunks review subs) = chunk_at i subs)
        /\ (forall corrections,
              review i (chunk_at i subs) = Some corrections ->
              chunk_at i (ai_review_chunks review subs)
              = fst (apply_corrections (chunk_at i subs) corrections))).
Proof.
  unfold ai_review_chunks.
  set (starts := range_step (length subs) CHUNK_SIZE).
  pose proof (review_loop_only_text review starts subs) as Hframe.
  assert (forall i, i ∈ starts ->
            chunk_at i (fold_left (review_chunk review) starts subs)
            = reviewed review i (chunk_at i subs)) as Hwindow.
  { intros i Hi. apply review_loop_window; [apply range_step_sorted | done]. }
  split; [symmetry; by eapply Forall2_length |]. split.
  - intros k line Hline.
    destruct (Forall2_lookup_l _ _ _ _ _ Hframe Hline) as (line' & Hline' & Hdiff).
    exists line'. split; [done |].
    unfold only_text_differs in Hdiff.
    repeat (split; [by rewrite Hdiff |]).
    intros Htext.
    apply lookup_lt_Some in Hline as Hk.
    destruct (window_of_position _ _ Hk) as (i & Hi & Hik).
    fold starts in Hi.
    pose proof (reviewed_retexted review i (chunk_at i subs)) as Hre.
    rewrite <- (Hwindow i Hi) in Hre.
    rewrite <- (chunk_at_lookup i subs k Hik) in Hline.
    rewrite <- (chunk_at_lookup i _ k Hik) in Hline'.
    destruct (Forall2_lookup_lr _ _ _ _ _ _ Hre Hline Hline')
      as [_ [Hsame | (c & Hc & Hidx & Hnew)]]; [done |].
    destruct (review i (chunk_at i subs)) as [corrections |] eqn:Hrev;
      simpl in Hc; [| by apply elem_of_nil in Hc].
    by exists i, corrections, c.
  - intros i Hi. rewrite (Hwindow i Hi). unfold reviewed. split.
    + by intros ->.
    + by intros corrections ->.
Qed.

Lemma ai_review_chunks_frame_witness :
  length (ai_review_chunks review_second_window long_talk)
  = length long_talk
  /\ (forall k line, long_talk !! k = Some line ->
        exists line',
          ai_review_chunks review_second_window long_talk !! k = Some line'
          /\ index line' = index line
          /\ start line' = start line
          /\ end_ line' = end_ line
          /\ proprietary line' = proprietary line
          /\ (content line' <> content line ->
                exists i corrections c,
                  i ∈ range_step (length long_talk) CHUNK_SIZE
                  /\ (i <= k < i + CHUNK_SIZE)%nat
                  /\ review_second_window i (chunk_at i long_talk)
                     = Some corrections
                  /\ c ∈ corrections
                  /\ c_index c = index line
                  /\ c_content c = content line'))
  /\ (forall i, i ∈ range_step (length long_talk) CHUNK_SIZE ->
        (review_second_window i (chunk_at i long_talk) = None ->
           chunk_at i (ai_review_chunks review_second_window long_talk)
           = chunk_at i long_talk)
        /\ (forall corrections,
              review_second_window i (chunk_at i long_talk)
              = Some corrections ->
              chunk_at i (ai_review_chunks review_second_window long_talk)
              = fst (apply_corrections (chunk_at i long_talk)
                       corrections))).
Proof. exact (ai_review_chunks_frame review_second_window long_talk). Defined.

(** The second pass on the three lines: only the text of line 2
    changes. *)
Example ai_review_chunks_example :
  ai_review_chunks review_first_window three_lines
  = [ mkSubtitle 1 0 1000000 (lit "so um") [];
      mkSubtitle 2 1000000 2000000 (lit "we add 1") [];
      mkSubtitle 3 2000000 3000000 (lit "two") [] ].
Proof. vm_compute. reflexivity. Qed.

(** The second pass on 150 lines when the request for the first window
    fails: the loop goes on to the second window and rewrites line 120
    there; line 7, which the answer for the second window also names, lies
    in the first window and keeps its text, as does every other line. *)
Example ai_review_chunks_after_failure :
  ai_review_chunks review_second_window long_talk
  = <[119%nat := mkSubtitle 120 119000000 120000000 (lit "la la") []]>
      long_talk.
Proof. vm_compute. reflexivity. Qed.

End review_facts.

(** ** Part 7: more on the silence trimmer *)

Section trimmer_more.
Import cleaner.

(** The loop over the later segments, unrolled. *)
Lemma between_loop_unroll g T rest : forall acc previous_end,
  (let '(to_delete, p) := fold_left (between_step g) rest (acc, previous_end) in
   if gt (T - p) g then to_delete ++ [(p, T)] else to_delete)
  = acc ++ gaps_after g T previous_end rest.
Proof.
  induction rest as [| seg rest IH]; intros acc p; simpl.
  - destruct (gt (T - p) g); [done | by rewrite app_nil_r].
  - rewrite IH. destruct (gt (seg_start seg - p) g); simpl.
    + by rewrite <- app_assoc.
    + done.
Qed.

Lemma segments_to_delete_unroll first rest T g :
  segments_to_delete (first :: rest) T g
  = Some ((if gt (seg_start first) g then [(0, seg_start first)] else [])
            ++ gaps_after g T (seg_end first) rest).
Proof.
  unfold segments_to_delete. rewrite <- between_loop_unroll.
  by destruct (fold_left _ _ _).
Qed.

Lemma keep_loop_unroll h T gaps : forall acc open,
  (let '(to_keep, p) := fold_left (keep_step h) gaps (acc, open) in
   if gt T p then to_keep ++ [(p, T)] else to_keep)
  = acc ++ keeps_after h T open gaps.
Proof.
  induction gaps as [| [s e] gaps IH]; intros acc p; simpl.
  - destruct (gt T p); [done | by rewrite app_nil_r].
  - rewrite IH. destruct (gt (s + h) p); simpl.
    + by rewrite <- app_assoc.
    + done.
Qed.

Lemma segments_to_keep_unroll to_delete T g :
  segments_to_keep to_delete T g = keeps_after (g / 2) T 0 to_delete.
Proof.
  unfold segments_to_keep.
  pose proof (keep_loop_unroll (g / 2) T to_delete [] 0) as Hloop.
  simpl in Hloop. rewrite <- Hloop. by destruct (fold_left _ _ _).
Qed.

(** *** The gaps *)

Lemma gaps_after_silences g T rest : forall previous_end lo,
  lo <= previous_end ->
  ordered_from previous_end rest ->
  Forall (fun seg => seg_end seg <= T) rest ->
  silences g lo T (gaps_after g T previous_end rest).
Proof.
  induction rest as [| seg rest IH]; intros p lo Hlo Hord Hend; simpl.
  - destruct (gt_cases (T - p) g) as [[-> Hgt] | [-> Hle]]; simpl; [| done].
    repeat split; lra.
  - destruct Hord as (Hs & Hse & Hrest).
    apply Forall_cons in Hend as [HT Hend].
    destruct (gt_cases (seg_start seg - p) g) as [[-> Hgt] | [-> Hle]]; simpl.
    + repeat split; try lra. apply IH; [lra | done | done].
    + apply IH; [lra | done | done].
Qed.

Lemma segments_to_delete_silences segments T g to_delete :
  speech_ok T segments ->
  segments_to_delete segments T g = Some to_delete ->
  silences g 0 T to_delete.
Proof.
  intros [Hord Hend]. destruct segments as [| first rest]; [done |].
  rewrite segments_to_delete_unroll. intros [= <-].
  destruct Hord as (H0 & Hfe & Hrest).
  apply Forall_cons in Hend as [HT Hend].
  destruct (gt_cases (seg_start first) g) as [[-> Hgt] | [-> Hle]]; simpl.
  - repeat split; try lra. apply gaps_after_silences; [lra | done | done].
  - apply gaps_after_silences; [lra | done | done].
Qed.

Lemma silences_elem_of g T gaps : forall lo s e,
  0 <= g ->
  silences g lo T gaps -> (s, e) ∈ gaps -> lo <= s /\ s + g < e /\ e <= T.
Proof.
  induction gaps as [| [s' e'] gaps IH]; intros lo s e Hg Hsil Hin.
  - by apply elem_of_nil in Hin.
  - destruct Hsil as (Hlo & Hw & HT & Hrest).
    apply elem_of_cons in Hin as [[= -> ->] | Hin]; [done |].
    destruct (IH _ _ _ Hg Hrest Hin) as (? & ? & ?). repeat split; lra.
Qed.

Lemma silences_lookup_lt g T gaps : forall lo i j s e s' e',
  0 <= g ->
  silences g lo T gaps -> (i < j)%nat ->
  gaps !! i = Some (s, e) -> gaps !! j = Some (s', e') -> e <= s'.
Proof.
  induction gaps as [| [a b] gaps IH];
    intros lo i j s e s' e' Hg Hsil Hij Hi Hj.
  - done.
  - destruct Hsil as (Hlo & Hw & HT & Hrest).
    destruct j as [| j]; [lia |]. simpl in Hj.
    destruct i as [| i]; simpl in Hi.
    + injection Hi as -> ->.
      apply list_elem_of_lookup_2 in Hj.
      by destruct (silences_elem_of _ _ _ _ _ _ Hg Hrest Hj).
    + apply (IH b i j s e s' e'); [done | done | lia | done | done].
Qed.

Lemma ordered_from_starts lo rest x :
  ordered_from lo rest -> x <= lo ->
  Forall (fun seg => x <= seg_start seg) rest.
Proof.
  revert lo. induction rest as [| seg rest IH]; intros lo Hord Hx;
    constructor; destruct Hord as (Hs & Hse & Hrest).
  - lra.
  - apply (IH (seg_end seg)); [done | lra].
Qed.

Lemma ordered_from_elem_of lo segments seg :
  ordered_from lo segments -> seg ∈ segments ->
  lo <= seg_start seg /\ seg_start seg < seg_end seg.
Proof.
  revert lo. induction segments as [| x rest IH];
    intros lo Hord Hseg; [by apply elem_of_nil in Hseg |].
  destruct Hord as (Hlo & Hx & Hrest).
  apply elem_of_cons in Hseg as [-> | Hseg]; [done |].
  destruct (IH _ Hrest Hseg). split; lra.
Qed.

(** A gap lies between two consecutive segments, before the first or
    after the last: it meets no segment. *)
Lemma gaps_after_between g T rest : forall previous_end s e,
  ordered_from previous_end rest ->
  Forall (fun seg => seg_end seg <= T) rest ->
  (s, e) ∈ gaps_after g T previous_end rest ->
  previous_end <= s
  /\ Forall (fun seg => e <= seg_start seg \/ seg_end seg <= s) rest.
Proof.
  induction rest as [| seg rest IH]; intros p s e Hord Hend Hin; simpl in Hin.
  - destruct (gt (T - p) g); [| by apply elem_of_nil in Hin].
    apply list_elem_of_singleton in Hin as [= -> ->].
    split; [lra | constructor].
  - destruct Hord as (Hs & Hse & Hrest).
    apply Forall_cons in Hend as [HT Hend].
    apply elem_of_app in Hin as [Hin | Hin].
    + destruct (gt (seg_start seg - p) g); [| by apply elem_of_nil in Hin].
      apply list_elem_of_singleton in Hin as [= -> ->].
      split; [lra |]. constructor; [left; lra |].
      eapply Forall_impl;
        [apply (ordered_from_starts _ _ (seg_start seg) Hrest); lra |].
      simpl. intros seg' Hseg'. by left.
    + destruct (IH _ _ _ Hrest Hend Hin) as [Hps Hall].
      split; [lra |]. constructor; [right; lra | done].
Qed.

Lemma gaps_avoid_speech segments T g to_delete s e seg :
  speech_ok T segments ->
  segments_to_delete segments T g = Some to_delete ->
  (s, e) ∈ to_delete -> seg ∈ segments ->
  e <= seg_start seg \/ seg_end seg <= s.
Proof.
  intros [Hord Hend]. destruct segments as [| first rest]; [done |].
  rewrite segments_to_delete_unroll. intros [= <-] Hin Hseg.
  destruct Hord as (H0 & Hfe & Hrest).
  apply Forall_cons in Hend as [HT Hend].
  pose proof (ordered_from_starts _ _ (seg_start first) Hrest) as Hstarts.
  rewrite Forall_forall in Hstarts.
  apply elem_of_app in Hin as [Hin | Hin].
  - destruct (gt (seg_start first) g); [| by apply elem_of_nil in Hin].
    apply list_elem_of_singleton in Hin as [= -> ->]. left.
    apply elem_of_cons in Hseg as [-> | Hseg]; [lra |].
    apply Hstarts; [lra | done].
  - destruct (gaps_after_between _ _ _ _ _ _ Hrest Hend Hin) as [Hps Hall].
    apply elem_of_cons in Hseg as [-> | Hseg]; [right; lra |].
    rewrite Forall_forall in Hall. by apply Hall.
Qed.

(** *** The keep intervals *)

(** Under ordered gaps every turn of the loop emits its interval. *)
Lemma keeps_after_buffered g h T gaps : forall lo open,
  g == 2 * h -> 0 < h ->
  silences g lo T gaps ->
  open < lo + h -> open < T ->
  keeps_after h T open gaps = buffered h T open gaps.
Proof.
  induction gaps as [| [s e] gaps IH]; intros lo p Hg Hh Hsil Hp HT; simpl.
  - destruct (gt_cases T p) as [[-> _] | [_ Hle]]; [done | lra].
  - destruct Hsil as (Hlo & Hw & He & Hrest).
    destruct (gt_cases (s + h) p) as [[-> _] | [_ Hle]]; [| lra].
    simpl. f_equal. apply (IH e); [done | done | done | lra | lra].
Qed.

Lemma segments_to_keep_buffered segments T g to_delete :
  speech_ok T segments -> 0 < g ->
  segments_to_delete segments T g = Some to_delete ->
  to_delete <> [] ->
  segments_to_keep to_delete T g = buffered (g / 2) T 0 to_delete.
Proof.
  intros Hok Hg Hdel Hne. rewrite segments_to_keep_unroll.
  pose proof (half_gap_double g) as Hh.
  pose proof (segments_to_delete_silences _ _ _ _ Hok Hdel) as Hsil.
  apply (keeps_after_buffered g _ _ _ 0); [done | lra | done | lra |].
  destruct to_delete as [| [s e] gaps]; [done |].
  destruct Hsil as (? & ? & ? & _). lra.
Qed.

Lemma buffered_bounds g h T gaps : forall lo open a b,
  g == 2 * h -> 0 < h ->
  silences g lo T gaps -> 0 <= open -> 0 <= lo -> open <= T ->
  (a, b) ∈ buffered h T open gaps -> 0 <= a /\ b <= T.
Proof.
  induction gaps as [| [s e] gaps IH];
    intros lo p a b Hg Hh Hsil Hp Hlo HT Hin; simpl in Hin.
  - apply list_elem_of_singleton in Hin as [= -> ->]. split; lra.
  - destruct Hsil as (Hs & Hw & He & Hrest).
    apply elem_of_cons in Hin as [[= -> ->] | Hin]; [split; lra |].
    apply (IH e (e - h) a b); try done; lra.
Qed.

(** A stretch that no gap meets lies within one keep interval. *)
Lemma keeps_after_cover h T gaps : forall open a b,
  0 <= h -> open <= a -> a < b -> b <= T ->
  Forall (fun gap => snd gap <= a \/ b <= fst gap) gaps ->
  exists c d, (c, d) ∈ keeps_after h T open gaps /\ c <= a /\ b <= d.
Proof.
  induction gaps as [| [s e] gaps IH]; intros p a b Hh Hp Hab HT Hall; simpl.
  - destruct (gt_cases T p) as [[-> _] | [_ Hle]]; [| lra].
    exists p, T. split; [left | lra].
  - apply Forall_cons in Hall as [[He | Hs] Hall]; simpl in *.
    + destruct (IH (e - h) a b) as (c & d & Hin & Hc & Hd);
        [done | lra | done | done | done |].
      exists c, d. split; [| done]. apply elem_of_app. by right.
    + destruct (gt_cases (s + h) p) as [[-> _] | [_ Hle]]; [| lra].
      exists p, (s + h). split; [| lra]. apply elem_of_app. left. left.
Qed.

(** X2.  For ordered speech within the video and a positive threshold no
    keep interval leaves the video: each starts at 0 or later and ends
    with the video or earlier. *)
Theorem keep_intervals_within_video segments T g to_delete to_keep :
  speech_ok T segments ->
  0 < g ->
  keep_intervals segments T g = Keep to_delete to_keep ->
  forall a b, (a, b) ∈ to_keep -> 0 <= a /\ b <= T.
Proof.
  intros Hok Hg Hrun a b Hin.
  apply keep_intervals_Keep in Hrun as (Hdel & Hne & ->).
  rewrite (segments_to_keep_buffered _ _ _ _ Hok Hg Hdel Hne) in Hin.
  pose proof (half_gap_double g) as Hh.
  pose proof (segments_to_delete_silences _ _ _ _ Hok Hdel) as Hsil.
  apply (buffered_bounds g (g / 2) T to_delete 0 0 a b);
    try done; try lra.
  destruct to_delete as [| [s e] gaps]; [done |].
  destruct Hsil as (? & ? & ? & _). lra.
Qed.

Lemma keep_intervals_within_video_witness :
  0 <= 2 - 1 / 2 /\ 5 + 1 / 2 <= 10.
Proof.
  apply (keep_intervals_within_video two_phrases 10 1 [(0, 2); (5, 13 # 2)]
           [(0, 0 + 1 / 2); (2 - 1 / 2, 5 + 1 / 2); ((13 # 2) - 1 / 2, 10)]).
  - apply speech_okb_true. reflexivity.
  - reflexivity.
  - reflexivity.
  - right. left.
Defined.

(** X3.  Under the same conditions no speech is cut: every speech
    segment lies within one keep interval. *)
Theorem speech_is_kept segments T g to_delete to_keep :
  speech_ok T segments ->
  0 < g ->
  keep_intervals segments T g = Keep to_delete to_keep ->
  forall seg, seg ∈ segments ->
    exists a b, (a, b) ∈ to_keep /\ a <= seg_start seg /\ seg_end seg <= b.
Proof.
  intros Hok Hg Hrun seg Hseg.
  apply keep_intervals_Keep in Hrun as (Hdel & Hne & ->).
  rewrite segments_to_keep_unroll.
  pose proof (half_gap_double g) as Hh.
  assert (0 <= seg_start seg /\ seg_start seg < seg_end seg
          /\ seg_end seg <= T) as (Hs & Hse & He).
  { destruct Hok as [Hord Hend]. rewrite Forall_forall in Hend.
    specialize (Hend _ Hseg).
    destruct (ordered_from_elem_of _ _ _ Hord Hseg). done. }
  apply keeps_after_cover; try done; try lra.
  apply Forall_forall. intros [s e] Hgap. simpl.
  by apply (gaps_avoid_speech segments T g to_delete).
Qed.

Lemma speech_is_kept_witness :
  exists a b,
    (a, b) ∈ [(0, 0 + 1 / 2); (2 - 1 / 2, 5 + 1 / 2);
              ((13 # 2) - 1 / 2, 10)]
    /\ a <= seg_start (mkSegment (13 # 2) 9)
    /\ seg_end (mkSegment (13 # 2) 9) <= b.
Proof.
  apply (speech_is_kept two_phrases 10 1 [(0, 2); (5, 13 # 2)]).
  - apply speech_okb_true. reflexivity.
  - reflexivity.
  - reflexivity.
  - right. left.
Defined.

(** X5.  For ordered speech within the video and a positive threshold,
    every silence gap lies within the video, is longer than the threshold
    and meets no speech segment, and the gaps follow one another without
    overlap. *)
Theorem gaps_are_silent segments T g to_delete :
  speech_ok T segments ->
  0 < g ->
  segments_to_delete segments T g = Some to_delete ->
  (forall s e, (s, e) ∈ to_delete ->
     0 <= s /\ g < e - s /\ e <= T
     /\ forall seg, seg ∈ segments ->
          e <= seg_start seg \/ seg_end seg <= s)
  /\ (forall i j s e s' e', (i < j)%nat ->
        to_delete !! i = Some (s, e) -> to_delete !! j = Some (s', e') ->
        e <= s').
Proof.
  intros Hok Hg Hdel.
  pose proof (segments_to_delete_silences _ _ _ _ Hok Hdel) as Hsil.
  split.
  - intros s e Hin.
    destruct (silences_elem_of g T to_delete 0 s e) as (Hs & Hw & He);
      [lra | done | done |].
    repeat split; [done | lra | done |].
    intros seg Hseg. by apply (gaps_avoid_speech segments T g to_delete).
  - intros i j s e s' e' Hij Hi Hj.
    apply (silences_lookup_lt g T to_delete 0 i j s e s' e');
      [lra | done | done | done | done].
Qed.

Lemma gaps_are_silent_witness :
  (forall s e, (s, e) ∈ [(0, 2); (5, 13 # 2)] ->
     0 <= s /\ 1 < e - s /\ e <= 10
     /\ forall seg, seg ∈ two_phrases ->
          e <= seg_start seg \/ seg_end seg <= s)
  /\ (forall i j s e s' e', (i < j)%nat ->
        [(0, 2); (5, 13 # 2)] !! i = Some (s, e) ->
        [(0, 2); (5, 13 # 2)] !! j = Some (s', e') ->
        e <= s').
Proof.
  apply (gaps_are_silent two_phrases 10 1).
  - apply speech_okb_true. reflexivity.
  - reflexivity.
  - reflexivity.
Defined.

End trimmer_more.

(** ** Part 8: more on pass 1 *)

Section refine_more.
Import editor.
Implicit Types (subs : list Subtitle).
Implicit Types (results : gmap nat ModifiedSentence) (st : Reassembly).

(** The loop around the turn of position [i]: the state [s1] in which
    the turn starts, and the state [s2] in which it ends. *)
Lemma reassemble_around results subs st i :
  reassemble results subs = Some st ->
  is_Some (results !! i) ->
  exists s1 s2,
    merge_step results s1 i = Some s2
    /\ subtitles s1 !! i = subs !! i
    /\ subtitles s1 !! (i + 1)%nat = subs !! (i + 1)%nat
    /\ ((i + 1)%nat ∉ skip_indices s1)
    /\ subtitles st !! i = subtitles s2 !! i
    /\ (forall k, (k <= i + 1)%nat ->
          k ∈ skip_indices st <-> k ∈ skip_indices s2).
Proof.
  intros Hrun Hi. unfold reassemble in Hrun.
  destruct (sorted_indices_split results i Hi)
    as (before & after & Heq & Hb & Ha).
  rewrite Heq, merge_loop_app in Hrun.
  destruct (merge_loop results before _) as [s1 |] eqn:H1;
    simpl in Hrun; [| done].
  destruct (merge_step results s1 i) as [s2 |] eqn:H2; simpl in Hrun; [| done].
  apply merge_loop_frame in H1 as (_ & _ & Hsub1 & _ & Hskip1).
  simpl in Hsub1, Hskip1.
  apply merge_loop_frame in Hrun as (_ & _ & Hsub3 & Hinc3 & Hskip3).
  rewrite Forall_forall in Hb, Ha.
  exists s1, s2. split; [done |].
  split; [apply Hsub1; intros Hin; apply Hb in Hin; lia |].
  split; [apply Hsub1; intros Hin; apply Hb in Hin; lia |].
  split.
  { intros Hin. destruct (Hskip1 _ Hin) as [Hin' | (j & Hj & Hij)].
    - by apply not_elem_of_empty in Hin'.
    - apply Hb in Hj. lia. }
  split; [apply Hsub3; intros Hin; apply Ha in Hin; lia |].
  intros k Hk. split; [| apply Hinc3].
  intros Hin. destruct (Hskip3 _ Hin) as [? | (j & Hj & ->)]; [done |].
  apply Ha in Hj. lia.
Qed.

(** A turn that is not skipped found its result and its line. *)
Lemma merge_step_found results s1 i s2 :
  merge_step results s1 i = Some s2 ->
  i ∉ skip_indices s1 ->
  exists data sub, results !! i = Some data /\ subtitles s1 !! i = Some sub.
Proof.
  unfold merge_step. intros Hstep Hskip.
  rewrite decide_False in Hstep by done.
  destruct (results !! i) as [data |]; simpl in Hstep; [| done].
  destruct (subtitles s1 !! i) as [sub |]; simpl in Hstep; [| done].
  by exists data, sub.
Qed.

(** A position is consumed by the turn of the position before it, and
    by a merge. *)
Lemma consumed_by_merge results subs st k :
  reassemble results subs = Some st ->
  k ∈ skip_indices st ->
  exists j data next_data sub next_sub,
    k = (j + 1)%nat
    /\ (j ∉ skip_indices st)
    /\ results !! j = Some data
    /\ merges_with results data j = Some next_data
    /\ subs !! j = Some sub
    /\ subs !! k = Some next_sub
    /\ subtitles st !! j
       = Some (set_end (end_ next_sub)
                 (set_content (output data ++ output next_data) sub)).
Proof.
  intros Hrun Hk.
  pose proof Hrun as Hloop. unfold reassemble in Hloop.
  apply merge_loop_frame in Hloop as (_ & _ & _ & _ & Hskip). simpl in Hskip.
  destruct (Hskip k Hk) as [Hin | (j & Hj & ->)];
    [by apply not_elem_of_empty in Hin |].
  apply sorted_indices_elem_of in Hj.
  destruct (reassemble_around _ _ _ _ Hrun Hj)
    as (s1 & s2 & Hstep & Hsj & Hsk & Hnk & Hline & Hsame).
  apply Hsame in Hk; [| lia].
  assert (j ∉ skip_indices s1) as Hnj.
  { intros Hin. unfold merge_step in Hstep.
    rewrite decide_True in Hstep by done. injection Hstep as <-. done. }
  destruct (merge_step_found _ _ _ _ Hstep Hnj) as (data & sub & Hdata & Hsub).
  pose proof (merge_step_at _ _ _ _ _ _ Hstep Hnj Hdata Hsub) as Hat.
  destruct (merges_with results data j) as [next_data |] eqn:Hm.
  - destruct Hat as (Hs & next_sub & Hnext & Hj').
    exists j, data, next_data, sub, next_sub.
    split; [done |]. split.
    { intros Hin. apply Hsame in Hin; [| lia]. rewrite Hs in Hin.
      set_solver by lia. }
    split; [done |]. split; [done |].
    split; [by rewrite <- Hsj |]. split; [by rewrite <- Hsk |].
    by rewrite Hline.
  - destruct Hat as [Hs _]. rewrite Hs in Hk. done.
Qed.

Lemma merges_with_Some results data i next_data :
  merges_with results data i = Some next_data <->
  should_merge_next data = true
  /\ results !! (i + 1)%nat = Some next_data
  /\ (length (output data ++ output next_data) <= 30)%nat.
Proof.
  unfold merges_with. destruct (should_merge_next data); simpl.
  - destruct (results !! (i + 1)%nat) as [next |]; simpl.
    + destruct (decide (length (output data ++ output next) <= 30)%nat).
      * split; [by intros [= ->] | by intros (_ & [= ->] & _)].
      * split; [done | intros (_ & [= ->] & ?); lia].
    + split; [done | by intros (_ & ? & _)].
  - split; [done | by intros (? & _)].
Qed.

(** A consumed position is skipped: its line stays as parsed and it
    consumes nothing itself. *)
Lemma consumed_is_skipped results subs st k :
  reassemble results subs = Some st ->
  is_Some (results !! k) ->
  k ∈ skip_indices st ->
  subtitles st !! k = subs !! k /\ ((k + 1)%nat ∉ skip_indices st).
Proof.
  intros Hrun Hres Hk.
  destruct (reassemble_around _ _ _ _ Hrun Hres)
    as (s1 & s2 & Hstep & Hsk & _ & Hnk & Hline & Hsame).
  apply Hsame in Hk as Hk2; [| lia].
  assert (s2 = s1) as ->.
  { destruct (decide (k ∈ skip_indices s1)) as [Hin1 | Hnot].
    - unfold merge_step in Hstep. rewrite decide_True in Hstep by done.
      by injection Hstep.
    - apply merge_step_frame in Hstep as (_ & _ & _ & _ & Hadd).
      destruct (Hadd k Hk2) as [? | ?]; [done | lia]. }
  split; [by rewrite Hline |].
  intros Hin. apply Hsame in Hin; [done | lia].
Qed.

(** X7.  Merging is single-hop.  A position consumed by the loop is not
    the first, its line stays as parsed, and neither the position before
    it nor the one after it is consumed; the line before it asked for the
    merge and carries the two result texts joined, at most 30 code
    points. *)
Theorem merges_are_single_hop results subs st k :
  reassemble results subs = Some st ->
  k ∈ skip_indices st ->
  (0 < k)%nat
  /\ ((k - 1)%nat ∉ skip_indices st)
  /\ ((k + 1)%nat ∉ skip_indices st)
  /\ subtitles st !! k = subs !! k
  /\ exists data next_data line,
       results !! (k - 1)%nat = Some data
       /\ should_merge_next data = true
       /\ results !! k = Some next_data
       /\ subtitles st !! (k - 1)%nat = Some line
       /\ content line = output data ++ output next_data
       /\ (length (content line) <= 30)%nat.
Proof.
  intros Hrun Hk.
  destruct (consumed_by_merge _ _ _ _ Hrun Hk)
    as (j & data & next_data & sub & next_sub
        & -> & Hnj & Hdata & Hm & Hsub & Hnext & Hline).
  apply merges_with_Some in Hm as (Hflag & Hres & Hlen).
  destruct (consumed_is_skipped _ _ _ _ Hrun (mk_is_Some _ _ Hres) Hk)
    as [Hsame Hafter].
  replace (j + 1 - 1)%nat with j by lia.
  split; [lia |]. repeat (split; [done |]).
  exists data, next_data. eexists. repeat (split; [done |]). done.
Qed.

Lemma merges_are_single_hop_witness :
  exists st,
    reassemble (asking_merge three_lines) three_lines = Some st
    /\ (0 < 1)%nat
    /\ ((1 - 1)%nat ∉ skip_indices st)
    /\ ((1 + 1)%nat ∉ skip_indices st)
    /\ subtitles st !! 1%nat = three_lines !! 1%nat
    /\ exists data next_data line,
         asking_merge three_lines !! (1 - 1)%nat = Some data
         /\ should_merge_next data = true
         /\ asking_merge three_lines !! 1%nat = Some next_data
         /\ subtitles st !! (1 - 1)%nat = Some line
         /\ content line = output data ++ output next_data
         /\ (length (content line) <= 30)%nat.
Proof.
  eexists. split; [vm_compute; reflexivity |].
  apply (merges_are_single_hop (asking_merge three_lines) three_lines).
  - vm_compute. reflexivity.
  - apply (bool_decide_unpack _). vm_compute. reflexivity.
Defined.



End refine_more.

(** ** Part 9: more on pass 2 *)

Section review_more.
Import editor.
Implicit Types (subs chunk : list Subtitle) (c : ChunkCorrection).
Implicit Types (corrections : list ChunkCorrection).

(** *** The windows *)

Lemma concat_windows {A} w m : forall l : list A,
  (length l <= m * w)%nat ->
  concat ((fun k => take w (drop (k * w) l)) <$> seq 0 m) = l.
Proof.
  induction m as [| m IH]; intros l Hlen.
  - simpl in Hlen. by destruct l; [| simpl in Hlen; lia].
  - rewrite <- cons_seq, <- fmap_S_seq, fmap_cons, <- list_fmap_compose.
    cbn [concat]. change (0 * w)%nat with 0%nat. rewrite drop_0.
    transitivity (take w l ++ drop w l); [| apply take_drop]. f_equal.
    etransitivity;
      [| apply (IH (drop w l)); rewrite length_drop; simpl in Hlen; lia].
    f_equal. apply list_fmap_ext. intros _ k _. simpl. by rewrite drop_drop.
Qed.

Lemma range_step_covers n w :
  (0 < w)%nat -> (n <= (n + w - 1) / w * w)%nat.
Proof.
  intros Hw.
  pose proof (Nat.div_mod_eq (n + w - 1) w) as Hdiv.
  pose proof (Nat.mod_upper_bound (n + w - 1) w) as Hmod. lia.
Qed.

Lemma range_step_lt n w i :
  (0 < w)%nat -> i ∈ range_step n w -> (i < n)%nat.
Proof.
  intros Hw (q & -> & Hq)%elem_of_range_step.
  pose proof (Nat.Div0.mul_div_le (n + w - 1) w) as Hle. nia.
Qed.

(** X12.  The windows of [ai_review_chunks] are a partition of the
    subtitles: joined in the order of the loop they give the list back,
    and each window holds at least one and at most [CHUNK_SIZE] lines.
    No line is left out of the review and none is sent twice. *)
Theorem windows_partition subs :
  concat ((fun i => chunk_at i subs) <$> range_step (length subs) CHUNK_SIZE)
  = subs
  /\ forall i, i ∈ range_step (length subs) CHUNK_SIZE ->
       (0 < length (chunk_at i subs) <= CHUNK_SIZE)%nat.
Proof.
  split.
  - unfold range_step. rewrite <- list_fmap_compose.
    apply (concat_windows CHUNK_SIZE). apply range_step_covers.
    unfold CHUNK_SIZE. lia.
  - intros i Hi. apply range_step_lt in Hi; [| unfold CHUNK_SIZE; lia].
    rewrite chunk_at_length. unfold CHUNK_SIZE in *. lia.
Qed.

(** *** The corrections of one window *)

Lemma apply_correction_count chunk n c :
  (n <= snd (apply_correction (chunk, n) c) <= S n)%nat
  /\ (snd (apply_correction (chunk, n) c) = n ->
       fst (apply_correction (chunk, n) c) = chunk).
Proof.
  destruct (apply_correction_cases chunk n c)
    as [[_ ->] | (k & target & _ & _ & _ & [[_ ->] | [_ ->]])]; simpl;
    (split; [lia |]); try done. lia.
Qed.

Lemma apply_corrections_loop_count corrections : forall chunk n,
  (n <= snd (fold_left apply_correction corrections (chunk, n))
     <= n + length corrections)%nat
  /\ (snd (fold_left apply_correction corrections (chunk, n)) = n ->
       fst (fold_left apply_correction corrections (chunk, n)) = chunk).
Proof.
  induction corrections as [| c corrections IH]; intros chunk n;
    cbn [fold_left length].
  - simpl. split; [lia | done].
  - destruct (apply_correction_count chunk n c) as [Hn Hsame].
    destruct (apply_correction (chunk, n) c) as [chunk1 n1].
    simpl in Hn, Hsame.
    destruct (IH chunk1 n1) as [Hn1 Hsame1].
    split; [lia |]. intros Heq.
    assert (n1 = n) as -> by lia.
    rewrite Hsame1 by done. by apply Hsame.
Qed.

(** X13.  [updates_count] never exceeds the number of corrections the
    service sent for the window, and when it is 0 (no "corrections
    applied" message) the window is exactly as it was. *)
Theorem updates_count_bounds chunk corrections :
  (snd (apply_corrections chunk corrections) <= length corrections)%nat
  /\ (snd (apply_corrections chunk corrections) = 0%nat ->
       fst (apply_corrections chunk corrections) = chunk).
Proof.
  unfold apply_corrections.
  destruct (apply_corrections_loop_count corrections chunk 0) as [Hn Hsame].
  split; [lia | done].
Qed.







End review_more.

(** ** Part 10: the renaming step of [main.py] *)

Section finalize_facts.
Import main.
Local Open Scope string_scope.

Context {File : Type}.
Variable splitext_root : string -> string.
Implicit Types (files : gmap string File).

Lemma exists_true path files file :
  files !! path = Some file -> exists_ File path files = true.
Proof. intros H. apply bool_decide_eq_true. eauto. Qed.

Lemma exists_false path files :
  files !! path = None -> exists_ File path files = false.
Proof. intros H. apply bool_decide_eq_false. rewrite H. by intros [? ?]. Qed.

Lemma rename_other src dst files file :
  files !! src = Some file -> src <> dst ->
  rename File src dst files = Done File (<[dst := file]> (delete src files)).
Proof. intros Hsrc Hne. unfold rename. by rewrite Hsrc, decide_False. Qed.

(** X15.  When ffmpeg wrote a trimmed video and the six paths of step 4
    are six files, step 4 ends with the trimmed video under the name of
    the original, the original under the backup name (or the backup of an
    earlier run kept), the refined subtitles next to the video, and the
    three intermediate paths gone; no other file is touched. *)
Theorem finalize_installs video_path trimmed_video final_srt files v t r :
  let orig_backup := splitext_root video_path +:+ "_orig.mp4" in
  let target_srt_name := splitext_root video_path +:+ ".srt" in
  let unrefined_srt := splitext_root trimmed_video +:+ ".srt" in
  NoDup [video_path; trimmed_video; final_srt; orig_backup;
         target_srt_name; unrefined_srt] ->
  files !! video_path = Some v ->
  files !! trimmed_video = Some t ->
  files !! final_srt = Some r ->
  exists files',
    finalize File splitext_root video_path trimmed_video final_srt files
    = Done File files'
    /\ files' !! video_path = Some t
    /\ files' !! orig_backup = Some (default v (files !! orig_backup))
    /\ files' !! target_srt_name = Some r
    /\ files' !! trimmed_video = None
    /\ files' !! final_srt = None
    /\ files' !! unrefined_srt = None
    /\ forall path,
         path ∉ [video_path; trimmed_video; final_srt; orig_backup;
                 target_srt_name; unrefined_srt] ->
         files' !! path = files !! path.
Proof.
  intros orig_backup target_srt_name unrefined_srt Hnd Hv Ht Hr.
  unfold finalize. fold orig_backup target_srt_name unrefined_srt.
  repeat match goal with
         | H : NoDup (_ :: _) |- _ => apply NoDup_cons in H as [? H]
         end.
  repeat match goal with
         | H : _ ∉ _ :: _ |- _ => apply not_elem_of_cons in H as [? H]
         end.
  set (files1 := if exists_ File orig_backup files then files
                 else <[orig_backup := v]> (delete video_path files)).
  assert ((if exists_ File orig_backup files then Done File files
           else rename File video_path orig_backup files) = Done File files1)
    as ->.
  { unfold files1. destruct (exists_ File orig_backup files); [done |].
    by apply rename_other. }
  assert (files1 !! trimmed_video = Some t
          /\ files1 !! final_srt = Some r
          /\ files1 !! orig_backup = Some (default v (files !! orig_backup))
          /\ forall path, path <> video_path -> path <> orig_backup ->
               files1 !! path = files !! path) as (Ht1 & Hr1 & Ho1 & Hsame1).
  { unfold files1. destruct (files !! orig_backup) as [b |] eqn:Ho.
    - rewrite (exists_true _ _ _ Ho). by rewrite Ho.
    - rewrite (exists_false _ _ Ho). simpl.
      rewrite !lookup_insert_ne, !lookup_delete_ne, lookup_insert_eq by done.
      repeat split; try done. intros path ? ?.
      by rewrite lookup_insert_ne, lookup_delete_ne. }
  simpl. rewrite (rename_other _ _ _ _ Ht1) by done. simpl.
  set (files2 := <[video_path := t]> (delete trimmed_video files1)).
  set (files3 := if exists_ File target_srt_name files2
                 then delete target_srt_name files2 else files2).
  assert ((if exists_ File target_srt_name files2
           then remove File target_srt_name files2 else Done File files2)
          = Done File files3) as ->.
  { unfold files3, exists_, remove.
    destruct (files2 !! target_srt_name) eqn:Htg.
    - by rewrite bool_decide_eq_true_2 by eauto.
    - by rewrite bool_decide_eq_false_2 by (by intros [? ?]). }
  assert (forall path, path <> target_srt_name ->
            files3 !! path = files2 !! path) as Hsame3.
  { intros path Hp. unfold files3.
    destruct (exists_ File target_srt_name files2); [| done].
    by rewrite lookup_delete_ne. }
  assert (files3 !! target_srt_name = None) as Htg3.
  { unfold files3, exists_.
    destruct (files2 !! target_srt_name) eqn:Htg.
    - rewrite bool_decide_eq_true_2 by eauto. apply lookup_delete_eq.
    - by rewrite bool_decide_eq_false_2 by (by intros [? ?]). }
  assert (files3 !! final_srt = Some r) as Hr3.
  { rewrite Hsame3 by done. unfold files2.
    by rewrite lookup_insert_ne, lookup_delete_ne. }
  simpl. rewrite (rename_other _ _ _ _ Hr3) by done. simpl.
  set (files4 := <[target_srt_name := r]> (delete final_srt files3)).
  set (files5 := if exists_ File unrefined_srt files4
                    && bool_decide (unrefined_srt <> final_srt)
                 then delete unrefined_srt files4 else files4).
  exists files5. split.
  { unfold files5, exists_, remove.
    destruct (files4 !! unrefined_srt) eqn:Hun.
    - rewrite bool_decide_eq_true_2 by eauto.
      by rewrite bool_decide_eq_true_2 by done.
    - by rewrite bool_decide_eq_false_2 by (by intros [? ?]). }
  assert (forall path, path <> unrefined_srt ->
            files5 !! path = files4 !! path) as Hsame5.
  { intros path Hp. unfold files5.
    destruct (_ && _); [| done]. by rewrite lookup_delete_ne. }
  assert (files5 !! unrefined_srt = None) as Hun5.
  { unfold files5, exists_.
    destruct (files4 !! unrefined_srt) eqn:Hun.
    - rewrite bool_decide_eq_true_2 by eauto.
      rewrite bool_decide_eq_true_2 by done. apply lookup_delete_eq.
    - by rewrite bool_decide_eq_false_2 by (by intros [? ?]). }
  split.
  { rewrite Hsame5 by done. unfold files4.
    rewrite lookup_insert_ne, lookup_delete_ne, Hsame3 by done.
    unfold files2. by rewrite lookup_insert_eq. }
  split.
  { rewrite Hsame5 by done. unfold files4.
    rewrite lookup_insert_ne, lookup_delete_ne, Hsame3 by done.
    unfold files2. by rewrite lookup_insert_ne, lookup_delete_ne. }
  split.
  { rewrite Hsame5 by done. unfold files4. by rewrite lookup_insert_eq. }
  split.
  { rewrite Hsame5 by done. unfold files4.
    rewrite lookup_insert_ne, lookup_delete_ne, Hsame3 by done.
    unfold files2. by rewrite lookup_insert_ne, lookup_delete_eq. }
  split.
  { rewrite Hsame5 by done. unfold files4.
    by rewrite lookup_insert_ne, lookup_delete_eq. }
  split; [done |].
  intros path Hp.
  repeat match goal with
         | H : _ ∉ _ :: _ |- _ => apply not_elem_of_cons in H as [? H]
         end.
  rewrite Hsame5 by done. unfold files4.
  rewrite lookup_insert_ne, lookup_delete_ne, Hsame3 by done.
  unfold files2. rewrite lookup_insert_ne, lookup_delete_ne by done.
  by apply Hsame1.
Qed.

(** X16.  When nothing was trimmed ([remove_video_silence] handed back
    its input, so the trimmed video is the video itself) and there is no
    backup yet, step 4 stops with an error after its first rename: the
    video is left under the backup name only, and nothing else has
    changed. *)
Theorem finalize_untrimmed_loses_name video_path final_srt files v :
  let orig_backup := splitext_root video_path +:+ "_orig.mp4" in
  files !! video_path = Some v ->
  files !! orig_backup = None ->
  finalize File splitext_root video_path video_path final_srt files
  = Stopped File (<[orig_backup := v]> (delete video_path files)).
Proof.
  intros orig_backup Hv Ho. unfold finalize. fold orig_backup.
  assert (video_path <> orig_backup) as Hne by congruence.
  rewrite (exists_false _ _ Ho), (rename_other _ _ _ _ Hv) by done. simpl.
  unfold rename. by rewrite lookup_insert_ne, lookup_delete_eq.
Qed.

(** X17.  When nothing was trimmed and a backup of an earlier run is
    there, step 4 ends normally with the refined subtitles deleted: they
    are renamed to the name next to the video, which is also the name of
    the unrefined subtitles that step 4 removes last. *)
Theorem finalize_untrimmed_deletes_srt video_path final_srt files v b r :
  let orig_backup := splitext_root video_path +:+ "_orig.mp4" in
  let target_srt_name := splitext_root video_path +:+ ".srt" in
  files !! video_path = Some v ->
  files !! orig_backup = Some b ->
  files !! final_srt = Some r ->
  final_srt <> target_srt_name ->
  finalize File splitext_root video_path video_path final_srt files
  = Done File (delete target_srt_name (delete final_srt files)).
Proof.
  intros orig_backup target_srt_name Hv Ho Hr Hne.
  unfold finalize. fold orig_backup target_srt_name.
  rewrite (exists_true _ _ _ Ho). simpl.
  unfold rename at 1. rewrite Hv, decide_True by done. simpl.
  set (files3 := if exists_ File target_srt_name files
                 then delete target_srt_name files else files).
  assert ((if exists_ File target_srt_name files
           then remove File target_srt_name files else Done File files)
          = Done File files3) as ->.
  { unfold files3, exists_, remove.
    destruct (files !! target_srt_name) eqn:Htg.
    - by rewrite bool_decide_eq_true_2 by eauto.
    - by rewrite bool_decide_eq_false_2 by (by intros [? ?]). }
  assert (files3 = delete target_srt_name files) as ->.
  { unfold files3, exists_.
    destruct (files !! target_srt_name) eqn:Htg.
    - by rewrite bool_decide_eq_true_2 by eauto.
    - rewrite bool_decide_eq_false_2 by (by intros [? ?]).
      symmetry. by apply delete_id. }
  simpl. rewrite (rename_other final_srt target_srt_name _ r);
    [| by rewrite lookup_delete_ne | done].
  simpl. rewrite (exists_true _ _ r) by apply lookup_insert_eq.
  rewrite bool_decide_eq_true_2 by done. simpl.
  unfold remove. rewrite lookup_insert_eq. f_equal.
  rewrite delete_insert_eq.
  by rewrite (delete_delete _ final_srt), delete_delete_eq.
Qed.

End finalize_facts.

Lemma finalize_installs_witness :
  exists files',
    main.finalize nat root_of_sample "talk.mp4" "talk_trimmed.mp4"
      "talk_trimmed_refined.srt" after_trimming
    = main.Done nat files'
    /\ files' !! "talk.mp4"%string = Some 2%nat
    /\ files' !! "talk_orig.mp4"%string = Some 1%nat
    /\ files' !! "talk.srt"%string = Some 4%nat
    /\ files' !! "talk_trimmed.mp4"%string = None
    /\ files' !! "talk_trimmed_refined.srt"%string = None
    /\ files' !! "talk_trimmed.srt"%string = None
    /\ forall path,
         path ∉ [ "talk.mp4"; "talk_trimmed.mp4"; "talk_trimmed_refined.srt";
                  "talk_orig.mp4"; "talk.srt"; "talk_trimmed.srt" ]%string ->
         files' !! path = after_trimming !! path.
Proof.
  apply (finalize_installs root_of_sample "talk.mp4" "talk_trimmed.mp4"
           "talk_trimmed_refined.srt" after_trimming 1%nat 2%nat 4%nat).
  - apply (bool_decide_unpack _). vm_compute. reflexivity.
  - reflexivity.
  - reflexivity.
  - reflexivity.
Defined.

Lemma finalize_untrimmed_loses_name_witness :
  main.finalize nat root_of_sample "talk.mp4" "talk.mp4" "talk_refined.srt"
    nothing_trimmed
  = main.Stopped nat
      (<["talk_orig.mp4"%string := 1%nat]>
         (delete "talk.mp4"%string nothing_trimmed)).
Proof.
  apply (finalize_untrimmed_loses_name root_of_sample "talk.mp4"
           "talk_refined.srt" nothing_trimmed 1%nat).
  - reflexivity.
  - reflexivity.
Defined.

Lemma finalize_untrimmed_deletes_srt_witness :
  main.finalize nat root_of_sample "talk.mp4" "talk.mp4" "talk_refined.srt"
    nothing_trimmed_again
  = main.Done nat
      (delete "talk.srt"%string
         (delete "talk_refined.srt"%string nothing_trimmed_again)).
Proof.
  apply (finalize_untrimmed_deletes_srt root_of_sample "talk.mp4"
           "talk_refined.srt" nothing_trimmed_again 1%nat 0%nat 4%nat).
  - reflexivity.
  - reflexivity.
  - reflexivity.
  - discriminate.
Defined.
